(** * cmap: a sharded concurrent map (Go), shallow embedding

    The development follows the layout of the Go package:
    - machine integers and [roundUpToPowerOf2]     (cmap.go)
    - the hash dispatcher ([getHasher] and the hash functions)
    - codecs ([SerializerFunc] and its constructors)
    - the sharded [Map], its operations            (cmap.go) and [createMap]
    - the serialization protocol ([MarshalWith], [UnmarshalWith])
    - the persistence layer                        (file.go)

    Locks are not modelled: every operation is evaluated sequentially, so a
    [sync.RWMutex] acquire/release pair is the identity on the state. *)

From Stdlib Require Import ZArith Lia Bool.
From stdpp Require Import gmap strings list fin_maps.

Local Open Scope Z_scope.

(** The slash that separates the components of a path. *)
Definition slash : Ascii.ascii := Ascii.Ascii true true true true false true false false.

Local Open Scope Z_scope.

(* ===================================================================== *)
(** ** Machine integers *)
(* ===================================================================== *)

(** Go's [uint32] and [uint64] are values of [Z] reduced modulo the word
    size after every operation that can leave the range. *)
Definition wrap32 (x : Z) : Z := x mod 2 ^ 32.
Definition wrap64 (x : Z) : Z := x mod 2 ^ 64.

(** cmap.go, [roundUpToPowerOf2]. *)
Definition roundUpToPowerOf2 (n : Z) : Z :=
  if n =? 0 then 1
  else
    let n := wrap32 (n - 1) in
    let n := Z.lor n (Z.shiftr n 1) in
    let n := Z.lor n (Z.shiftr n 2) in
    let n := Z.lor n (Z.shiftr n 4) in
    let n := Z.lor n (Z.shiftr n 8) in
    let n := Z.lor n (Z.shiftr n 16) in
    wrap32 (n + 1).

(* ===================================================================== *)
(** ** Hash dispatcher *)
(* ===================================================================== *)

(** [uint32Hash]: the conversion [uint32(key)] of an integer key of at most
    32 bits is reduction modulo 2^32. *)
Definition uint32Hash (key : Z) : Z :=
  let x := wrap32 key in
  let x := wrap32 (Z.lxor (Z.shiftr x 16) x * 0x45d9f3b) in
  let x := wrap32 (Z.lxor (Z.shiftr x 16) x * 0x45d9f3b) in
  let x := Z.lxor (Z.shiftr x 16) x in
  x.

(** [uint64Hash]: 64-bit mixer, truncated to 32 bits by [uint32(x)]. *)
Definition uint64Hash (key : Z) : Z :=
  let x := wrap64 key in
  let x := wrap64 (Z.lxor x (Z.shiftr x 30) * 0xbf58476d1ce4e5b9) in
  let x := wrap64 (Z.lxor x (Z.shiftr x 27) * 0x94d049bb133111eb) in
  let x := Z.lxor x (Z.shiftr x 31) in
  wrap32 x.

(** A float key is represented by its IEEE-754 bit pattern, which is what
    the [unsafe.Pointer] cast of [&key] to an unsigned integer reads.  The two
    tests the hash functions perform on the float itself are decoded from the pattern:
    [math.IsNaN] (exponent all ones, non-zero fraction) and [key == 0]
    (all bits but the sign are zero). *)
Module Float32.
Definition isNaN (b : Z) : bool :=
  (Z.land b 0x7F800000 =? 0x7F800000) && negb (Z.land b 0x007FFFFF =? 0).
Definition isZero (b : Z) : bool := Z.land b 0x7FFFFFFF =? 0.
(** Go's [==] on floats: false when either side is NaN, true between the
    two zeros, otherwise equality of the patterns. *)
Definition eqb (a b : Z) : bool :=
  negb (isNaN a) && negb (isNaN b) && ((isZero a && isZero b) || (a =? b)).
End Float32.

Module Float64.
Definition isNaN (b : Z) : bool :=
  (Z.land b 0x7FF0000000000000 =? 0x7FF0000000000000)
  && negb (Z.land b 0x000FFFFFFFFFFFFF =? 0).
Definition isZero (b : Z) : bool := Z.land b 0x7FFFFFFFFFFFFFFF =? 0.
Definition eqb (a b : Z) : bool :=
  negb (isNaN a) && negb (isNaN b) && ((isZero a && isZero b) || (a =? b)).
End Float64.

Definition float32Hash (key : Z) : Z :=
  if Float32.isNaN key then 0x7FFFFFFF
  else if Float32.isZero key then 0
  else uint32Hash key.

Definition float64Hash (key : Z) : Z :=
  if Float64.isNaN key then 0x7FFFFFFF
  else if Float64.isZero key then 0
  else uint64Hash key.

(** FNV-1, 32 bits ([hash/fnv].New32): multiply by the prime, then xor the
    byte. *)
Definition fnv32_step (h : Z) (c : Ascii.ascii) : Z :=
  Z.lxor (wrap32 (h * 16777619)) (Z.of_N (Ascii.N_of_ascii c)).

Fixpoint fnv32 (h : Z) (s : string) : Z :=
  match s with
  | EmptyString => h
  | String c s' => fnv32 (fnv32_step h c) s'
  end.

(** The [hasher[K]] interface. *)
Class hasher (K : Type) := Hash : K → Z.

(** The hashers [getHasher] selects by the key type.  Integer and float keys
    are carried by [Z] (the value, respectively the bit pattern), so the
    hashers are named definitions and a map is given the one of its key
    type. *)
Definition int32Hasher : hasher Z := uint32Hash.
Definition intHasher : hasher Z := uint64Hash.
Definition float32Hasher : hasher Z := float32Hash.
Definition float64Hasher : hasher Z := float64Hash.
Definition stringHasher : hasher string := fnv32 2166136261.

(* ===================================================================== *)
(** ** Panics and errors *)
(* ===================================================================== *)

(** A Go call either returns or panics (index out of range, nil
    dereference).  [Panic] aborts the rest of the computation. *)
Inductive outcome (A : Type) : Type :=
  | Done (a : A)
  | Panic.
Arguments Done {A} a.
Arguments Panic {A}.

Definition obind {A B} (x : outcome A) (f : A → outcome B) : outcome B :=
  match x with
  | Done a => f a
  | Panic => Panic
  end.

Notation "x ←! e1 ; e2" := (obind e1 (fun x => e2))
  (at level 20, e1 at level 100, e2 at level 200, only parsing).

(** Go [error] values: a message, possibly wrapping a cause ([%w]). *)
Inductive error : Type :=
  | errorString (msg : string)
  | wrapError (msg : string) (cause : error).

(** A pair [(T, error)] as returned by Go functions that can fail. *)
Inductive result (A : Type) : Type :=
  | Ok (a : A)
  | Err (e : error).
Arguments Ok {A} a.
Arguments Err {A} e.

Abbreviation bytes := (list Byte.byte).

(* ===================================================================== *)
(** ** Codecs *)
(* ===================================================================== *)

Record Tuple (K V : Type) := mkTuple { Key : K; Value : V }.
Arguments mkTuple {K V} Key Value.
Arguments Key {K V} t.
Arguments Value {K V} t.

Record SerializableData (K V : Type) := mkData { Items : list (Tuple K V) }.
Arguments mkData {K V} Items.
Arguments Items {K V} s.

(** [SerializerFunc].  The function fields may be nil ([None]).  The codec
    functions take [interface{}] in Go; a map only ever passes its own
    [SerializableData[K, V]], which fixes the type here. *)
Record SerializerFunc (K V : Type) := mkSerializer {
  NameFunc : string;
  MarshalFunc : option (SerializableData K V → result bytes);
  UnmarshalFunc : option (bytes → result (SerializableData K V));
  isJSON : bool
}.
Arguments mkSerializer {K V} NameFunc MarshalFunc UnmarshalFunc isJSON.
Arguments NameFunc {K V} s.
Arguments MarshalFunc {K V} s.
Arguments UnmarshalFunc {K V} s.
Arguments isJSON {K V} s.

(** The methods [Marshal] and [Unmarshal] of a [SerializerFunc]: calling a
    nil function value panics. *)
Definition Marshal {K V} (s : SerializerFunc K V) (v : SerializableData K V)
  : outcome (result bytes) :=
  match MarshalFunc s with
  | Some f => Done (f v)
  | None => Panic
  end.

Definition Unmarshal {K V} (s : SerializerFunc K V) (data : bytes)
  : outcome (result (SerializableData K V)) :=
  match UnmarshalFunc s with
  | Some f => Done (f data)
  | None => Panic
  end.

Definition IsJSON {K V} (s : SerializerFunc K V) : bool := isJSON s.

(** The encoders of the standard library and of the third-party packages
    are outside the repository: a pair of functions each. *)
Record Encoding (K V : Type) := mkEncoding {
  encode : SerializableData K V → result bytes;
  decode : bytes → result (SerializableData K V)
}.
Arguments encode {K V} e.
Arguments decode {K V} e.

Definition JsonSerializer {K V} (json : Encoding K V) : SerializerFunc K V :=
  mkSerializer "json" (Some (encode json)) (Some (decode json)) true.

Definition JsoniterSerializer {K V} (jsoniter : Encoding K V) : SerializerFunc K V :=
  mkSerializer "jsoniter" (Some (encode jsoniter)) (Some (decode jsoniter)) true.

Definition SonicSerializer {K V} (sonic : Encoding K V) : SerializerFunc K V :=
  mkSerializer "sonic" (Some (encode sonic)) (Some (decode sonic)) true.

(** [GobSerializer] leaves [isJSON] at its zero value. *)
Definition GobSerializer {K V} (gob : Encoding K V) : SerializerFunc K V :=
  mkSerializer "gob" (Some (encode gob)) (Some (decode gob)) false.

(** The type assertion [any(serializer).(JSONCompatible)] asks whether the
    dynamic type, [*SerializerFunc], has the method [IsJSON() bool].  It
    has (the method is declared on the pointer receiver), so the assertion
    succeeds for every serializer; the value of the flag is not consulted. *)
Definition assertJSONCompatible {K V} (s : SerializerFunc K V) : bool := true.

(* ===================================================================== *)
(** ** Options *)
(* ===================================================================== *)

Record Options (K V : Type) := mkOptions {
  ShardCount : Z;
  Serializer : option (SerializerFunc K V)
}.
Arguments mkOptions {K V} ShardCount Serializer.
Arguments ShardCount {K V} o.
Arguments Serializer {K V} o.

(** [Option] is a function mutating an [Options] through a pointer: a state
    transformer on the options. *)
Definition Option (K V : Type) : Type := Options K V → Options K V.

Definition WithShardCount {K V} (count : Z) : Option K V :=
  fun o => mkOptions count (Serializer o).

Definition WithSerializer {K V} (v : option (SerializerFunc K V)) : Option K V :=
  fun o => mkOptions (ShardCount o) v.

(* ===================================================================== *)
(** ** The sharded map (cmap.go) *)
(* ===================================================================== *)

Section cmap.
Context {K V : Type} `{Countable K} `{Inhabited V}.

(** *** Backend map

    A shard delegates to a [maps.Map[K, V]] of the gods library, which is
    outside the repository.  It is a finite map; the inhabitant of [V] is
    Go's zero value, returned by a failed lookup. *)
Definition m_Put (key : K) (value : V) (b : gmap K V) : gmap K V := <[key:=value]> b.
Definition m_Get (key : K) (b : gmap K V) : V * bool :=
  match b !! key with
  | Some v => (v, true)
  | None => (inhabitant, false)
  end.
Definition m_Remove (key : K) (b : gmap K V) : gmap K V := delete key b.
Definition m_Size (b : gmap K V) : Z := Z.of_nat (size b).
Definition m_Empty (b : gmap K V) : bool := m_Size b =? 0.
Definition m_Clear (b : gmap K V) : gmap K V := ∅.
Definition m_Keys (b : gmap K V) : list K := (map_to_list b).*1.
Definition m_Values (b : gmap K V) : list V := (map_to_list b).*2.

(** *** [Map]

    A shard is its backend map (its mutex and its copy of the options
    pointer carry no data of their own). *)
Record Map := mkMap {
  shards : list (gmap K V);
  mask : Z;
  dirty : bool;
  mhasher : hasher K;
  opts : Options K V
}.

Definition setShard (m : Map) (i : nat) (sh : gmap K V) : Map :=
  mkMap (<[i:=sh]> (shards m)) (mask m) (dirty m) (mhasher m) (opts m).

Definition setDirty (m : Map) (d : bool) : Map :=
  mkMap (shards m) (mask m) d (mhasher m) (opts m).

(** [getShard]: [&m.shards[hash&m.mask]].  The pointer is the index together
    with the shard it currently designates; indexing out of range panics. *)
Definition getShard (m : Map) (key : K) : outcome (nat * gmap K V) :=
  let hash := mhasher m key in
  let i := Z.to_nat (Z.land hash (mask m)) in
  match shards m !! i with
  | Some sh => Done (i, sh)
  | None => Panic
  end.

Definition Put (m : Map) (key : K) (value : V) : outcome Map :=
  sh ←! getShard m key;
  let m := setShard m sh.1 (m_Put key value sh.2) in
  Done (setDirty m true).

Definition Get (m : Map) (key : K) : outcome (V * bool) :=
  sh ←! getShard m key;
  Done (m_Get key sh.2).

Definition Remove (m : Map) (key : K) : outcome Map :=
  sh ←! getShard m key;
  let ok := (m_Get key sh.2).2 in
  let m := if ok then setShard m sh.1 (m_Remove key sh.2) else m in
  Done (if ok then setDirty m true else m).

(** [Empty]: returns at the first shard that is not empty. *)
Fixpoint Empty_from (l : list (gmap K V)) : bool :=
  match l with
  | [] => true
  | sh :: l' => if negb (m_Empty sh) then false else Empty_from l'
  end.

Definition Empty (m : Map) : bool := Empty_from (shards m).

Definition Size (m : Map) : Z :=
  fold_left (fun size sh => size + m_Size sh) (shards m) 0.

Definition Clear (m : Map) : Map :=
  let m := mkMap (m_Clear <$> shards m) (mask m) (dirty m) (mhasher m) (opts m) in
  setDirty m true.

Definition Keys (m : Map) : list K :=
  fold_left (fun keys sh => keys ++ m_Keys sh) (shards m) [].

Definition Values (m : Map) : list V :=
  fold_left (fun values sh => values ++ m_Values sh) (shards m) [].

Definition IsDirty (m : Map) : bool := dirty m.

(** *** Construction

    [numCPU] is [runtime.NumCPU()] and [json] the encoder behind the default
    serializer.  [createUnderlyingMap] yields an empty backend. *)
Definition createMap (json : Encoding K V) (hasher_K : hasher K) (numCPU : Z)
    (options : list (Option K V)) : Map :=
  let opts := mkOptions (wrap32 (numCPU * 16)) (Some (JsonSerializer json)) in
  let opts := fold_left (fun o option => option o) options opts in
  let shardCount := roundUpToPowerOf2 (ShardCount opts) in
  let shards := replicate (Z.to_nat shardCount) (∅ : gmap K V) in
  mkMap shards (wrap32 (shardCount - 1)) false hasher_K opts.

(* ===================================================================== *)
(** ** Serialization protocol *)
(* ===================================================================== *)

Definition getJSONSerializer (json : Encoding K V) (m : Map) : SerializerFunc K V :=
  match Serializer (opts m) with
  | None => JsonSerializer json
  | Some serializer =>
      if assertJSONCompatible serializer then serializer
      else JsonSerializer json
  end.

(** The entries appended while visiting one shard. *)
Definition shardItems (sh : gmap K V) : list (Tuple K V) :=
  (fun key => mkTuple key (m_Get key sh).1) <$> m_Keys sh.

Definition collectItems (m : Map) : list (Tuple K V) :=
  fold_left (fun items sh => items ++ shardItems sh) (shards m) [].

Definition MarshalWith (m : Map) (serializer : SerializerFunc K V)
  : outcome (result bytes) :=
  let items := collectItems m in
  let data := mkData items in
  Marshal serializer data.

(** The loop of [UnmarshalWith] over the decoded items. *)
Fixpoint putItems (m : Map) (items : list (Tuple K V)) : outcome Map :=
  match items with
  | [] => Done m
  | tuple :: items' => m' ←! Put m (Key tuple) (Value tuple); putItems m' items'
  end.

(** [UnmarshalWith] returns the error ([None] is nil) next to the state of
    the map after the call. *)
Definition UnmarshalWith (m : Map) (data : bytes) (serializer : SerializerFunc K V)
  : outcome (option error * Map) :=
  r ←! Unmarshal serializer data;
  match r with
  | Err err => Done (Some err, m)
  | Ok serializableData =>
      let m := Clear m in
      m ←! putItems m (Items serializableData);
      Done (None, setDirty m false)
  end.

Definition MarshalJSON (json : Encoding K V) (m : Map) : outcome (result bytes) :=
  let serializer := getJSONSerializer json m in
  MarshalWith m serializer.

Definition UnmarshalJSON (json : Encoding K V) (m : Map) (data : bytes)
  : outcome (option error * Map) :=
  let serializer := getJSONSerializer json m in
  UnmarshalWith m data serializer.

(* ===================================================================== *)
(** ** Batch operations (batch.go) *)
(* ===================================================================== *)

(** [GetMultiple]: the result map starts empty and receives the keys that
    [Get] finds. *)
Fixpoint GetMultiple_from (m : Map) (keys : list K) (result : gmap K V)
  : outcome (gmap K V) :=
  match keys with
  | [] => Done result
  | key :: keys' =>
      r ←! Get m key;
      let result := if r.2 then <[key:=r.1]> result else result in
      GetMultiple_from m keys' result
  end.

Definition GetMultiple (m : Map) (keys : list K) : outcome (gmap K V) :=
  GetMultiple_from m keys ∅.

Fixpoint RemoveMultiple (m : Map) (keys : list K) : outcome Map :=
  match keys with
  | [] => Done m
  | key :: keys' => m' ←! Remove m key; RemoveMultiple m' keys'
  end.

(** [PutAll] ranges over a Go map, whose iteration order is unspecified:
    [entries] lists the entries of the argument in the order the loop
    happens to visit them. *)
Fixpoint PutAll (m : Map) (entries : list (K * V)) : outcome Map :=
  match entries with
  | [] => Done m
  | entry :: entries' => m' ←! Put m entry.1 entry.2; PutAll m' entries'
  end.

End cmap.

Arguments Map K V {_ _}.

(* ===================================================================== *)
(** ** Persistence layer (file.go) *)
(* ===================================================================== *)

(** The operating system is outside the repository.  A world [W] is acted
    upon by the primitives file.go calls; each returns its Go result and
    the world after the call.  [IsAbs] and [Dir] are the pure functions of
    [path/filepath]; [StatNotExist] is [os.Stat] followed by
    [os.IsNotExist] on its error. *)
Record OS (W : Type) := mkOS {
  IsAbs : string → bool;
  Dir : string → string;
  MkdirAll : string → W → option error * W;
  WriteFile : string → bytes → W → option error * W;
  Rename : string → string → W → option error * W;
  RemoveFile : string → W → option error * W;
  StatNotExist : string → W → bool * W;
  ReadFile : string → W → result bytes * W
}.
Arguments IsAbs {W} o.
Arguments Dir {W} o.
Arguments MkdirAll {W} o.
Arguments WriteFile {W} o.
Arguments Rename {W} o.
Arguments RemoveFile {W} o.
Arguments StatNotExist {W} o.
Arguments ReadFile {W} o.

Section file.
Context {K V : Type} `{Countable K} `{Inhabited V}.
Context {W : Type} (os : OS W).

(** The first block of [SaveToFile] after the empty-name test: for a
    relative path whose directory is neither "." nor empty, create the
    directory. *)
Definition ensureDir (filename : string) (w : W) : option error * W :=
  if negb (IsAbs os filename) then
    let dir := Dir os filename in
    if negb (String.eqb dir ".") && negb (String.eqb dir "") then
      match MkdirAll os dir w with
      | (Some err, w) =>
          (Some (wrapError ("failed to create directory " ++ dir) err), w)
      | (None, w) => (None, w)
      end
    else (None, w)
  else (None, w).

(** [SaveToFile] returns the error, the map and the world after the call. *)
Definition SaveToFile (m : Map K V) (filename : string) (w : W)
  : outcome (option error * Map K V * W) :=
  if String.eqb filename "" then
    Done (Some (errorString "filename cannot be empty"), m, w)
  else
    match ensureDir filename w with
    | (Some err, w) => Done (Some err, m, w)
    | (None, w) =>
        match Serializer (opts m) with
        | None =>
            Done (Some (errorString "no serializer configured for marshaling"), m, w)
        | Some serializer =>
            match MarshalFunc serializer with
            | None =>
                Done (Some (errorString "no serializer configured for marshaling"), m, w)
            | Some _ =>
                let size := Size m in
                if (size >? 0) && negb (dirty m) then Done (None, m, w)
                else
                  r ←! MarshalWith m serializer;
                  match r with
                  | Err err => Done (Some (wrapError "failed to marshal data" err), m, w)
                  | Ok data =>
                      let tempFile := (filename ++ ".tmp")%string in
                      match WriteFile os tempFile data w with
                      | (Some err, w) =>
                          Done (Some (wrapError ("failed to write temporary file " ++ tempFile) err), m, w)
                      | (None, w) =>
                          match Rename os tempFile filename w with
                          | (Some err, w) =>
                              let w := (RemoveFile os tempFile w).2 in
                              Done (Some (wrapError ("failed to rename temporary file to " ++ filename) err), m, w)
                          | (None, w) => Done (None, setDirty m false, w)
                          end
                      end
                  end
            end
        end
    end.

Definition LoadFromFile (m : Map K V) (filename : string) (w : W)
  : outcome (option error * Map K V * W) :=
  if String.eqb filename "" then
    Done (Some (errorString "filename cannot be empty"), m, w)
  else
    match Serializer (opts m) with
    | None =>
        Done (Some (errorString "no serializer configured for unmarshaling"), m, w)
    | Some serializer =>
        match UnmarshalFunc serializer with
        | None =>
            Done (Some (errorString "no serializer configured for unmarshaling"), m, w)
        | Some _ =>
            match StatNotExist os filename w with
            | (true, w) =>
                Done (Some (errorString ("file " ++ filename ++ " does not exist")), m, w)
            | (false, w) =>
                match ReadFile os filename w with
                | (Err err, w) =>
                    Done (Some (wrapError ("failed to read file " ++ filename) err), m, w)
                | (Ok data, w) =>
                    if (length data =? 0)%nat then
                      let m := Clear m in
                      Done (None, setDirty m false, w)
                    else
                      r ←! UnmarshalWith m data serializer;
                      match r.1 with
                      | Some err =>
                          Done (Some (wrapError ("failed to unmarshal data from " ++ filename) err), r.2, w)
                      | None => Done (None, setDirty r.2 false, w)
                      end
                end
            end
        end
    end.

End file.

(* ===================================================================== *)
(** ** Test doubles for the collaborators outside the repository *)
(* ===================================================================== *)

(** An in-memory file system: files, directories and a count of the
    [WriteFile] calls that succeeded. *)
Module MemFS.

Record world := mkWorld {
  files : gmap string bytes;
  dirs : gset string;
  writes : nat
}.

Definition empty : world := mkWorld ∅ ∅ 0.

Definition isAbs (path : string) : bool :=
  match path with
  | String c _ => Ascii.eqb c slash
  | EmptyString => false
  end.

(** The part of [path] before its last slash, when it has one. *)
Fixpoint beforeLastSlash (path : string) : option string :=
  match path with
  | EmptyString => None
  | String c rest =>
      match beforeLastSlash rest with
      | Some d => Some (String c d)
      | None => if Ascii.eqb c slash then Some EmptyString else None
      end
  end.

Definition dir (path : string) : string :=
  match beforeLastSlash path with
  | Some EmptyString => "/"
  | Some d => d
  | None => "."
  end.

Definition mkdirAll (d : string) (w : world) : option error * world :=
  match files w !! d with
  | Some _ => (Some (errorString "not a directory"), w)
  | None => (None, mkWorld (files w) ({[d]} ∪ dirs w) (writes w))
  end.

Definition writeFile (path : string) (data : bytes) (w : world)
  : option error * world :=
  if decide (path ∈ dirs w) then (Some (errorString "is a directory"), w)
  else (None, mkWorld (<[path:=data]> (files w)) (dirs w) (S (writes w))).

Definition rename (old new : string) (w : world) : option error * world :=
  match files w !! old with
  | None => (Some (errorString "no such file or directory"), w)
  | Some data =>
      if decide (new ∈ dirs w) then (Some (errorString "file exists"), w)
      else (None, mkWorld (<[new:=data]> (delete old (files w))) (dirs w) (writes w))
  end.

Definition remove (path : string) (w : world) : option error * world :=
  (None, mkWorld (delete path (files w)) (dirs w) (writes w)).

Definition statNotExist (path : string) (w : world) : bool * world :=
  (bool_decide (files w !! path = None) && bool_decide (path ∉ dirs w), w).

Definition readFile (path : string) (w : world) : result bytes * world :=
  match files w !! path with
  | Some data => (Ok data, w)
  | None => (Err (errorString "no such file or directory"), w)
  end.

Definition os : OS world :=
  mkOS world isAbs dir mkdirAll writeFile rename remove statNotExist readFile.

End MemFS.

(** A codec for maps from small integers to small integers: every entry is
    a key byte followed by a value byte.  Integers outside a byte are
    refused, and so is input of odd length. *)
Module ByteCodec.

Definition byteOfZ (z : Z) : option Byte.byte :=
  if (0 <=? z) && (z <? 256) then Byte.of_N (Z.to_N z) else None.

Definition zOfByte (b : Byte.byte) : Z := Z.of_N (Byte.to_N b).

Fixpoint encodeItems (items : list (Tuple Z Z)) : result bytes :=
  match items with
  | [] => Ok []
  | t :: items' =>
      match byteOfZ (Key t), byteOfZ (Value t), encodeItems items' with
      | Some k, Some v, Ok rest => Ok (k :: v :: rest)
      | _, _, _ => Err (errorString "unsupported value")
      end
  end.

Fixpoint decodeItems (data : bytes) : result (list (Tuple Z Z)) :=
  match data with
  | [] => Ok []
  | k :: v :: data' =>
      match decodeItems data' with
      | Ok items => Ok (mkTuple (zOfByte k) (zOfByte v) :: items)
      | Err e => Err e
      end
  | [_] => Err (errorString "unexpected end of input")
  end.

Definition encoding : Encoding Z Z :=
  mkEncoding Z Z
    (fun d => encodeItems (Items d))
    (fun data =>
       match decodeItems data with
       | Ok items => Ok (mkData items)
       | Err e => Err e
       end).

End ByteCodec.

(** Maps from [int] to [int] over the byte codec and the in-memory file
    system, on a machine with one CPU. *)
Module Example.

Definition new (options : list (Option Z Z)) : Map Z Z :=
  createMap ByteCodec.encoding intHasher 1 options.

Definition put (m : Map Z Z) (key value : Z) : Map Z Z :=
  match Put m key value with
  | Done m' => m'
  | Panic => m
  end.

(** No option: 16 shards, no entry, the default codec. *)
Definition emptyMap : Map Z Z := new [].

(** One entry, 1 ↦ 10. *)
Definition oneEntryMap : Map Z Z := put emptyMap 1 10.

(** [WithSerializer(nil)]. *)
Definition noCodecMap : Map Z Z := new [WithSerializer None].

(** [WithSerializer(GobSerializer())]. *)
Definition gobMap : Map Z Z :=
  new [WithSerializer (Some (GobSerializer ByteCodec.encoding))].

(** [WithShardCount(2147483649)], one more than 2^31. *)
Definition hugeMap : Map Z Z := new [WithShardCount 2147483649].

(** A world whose only file holds a single byte, which the byte codec
    refuses. *)
Definition badFileWorld : MemFS.world :=
  MemFS.mkWorld {[ "bad.bin"%string := [Byte.x01] ]} ∅ 0.

End Example.

(* ===================================================================== *)
(** ** Vocabulary of the statements *)
(* ===================================================================== *)

(** After [n |= n >> w] every bit is the disjunction of a window of bits of
    the starting value; each step of [roundUpToPowerOf2] doubles the
    window. *)
Definition window (x m w : Z) : Prop :=
  ∀ i, 0 ≤ i → Z.testbit x i = true ↔ ∃ j, i ≤ j < i + w ∧ Z.testbit m j = true.

(** [r] is the least power of two that is at least [n]. *)
Definition leastPowerOf2 (n r : Z) : Prop :=
  (∃ e, 0 ≤ e ∧ r = 2 ^ e) ∧ n ≤ r ∧ ∀ e, 0 ≤ e → n ≤ 2 ^ e → r ≤ 2 ^ e.

Section vocabulary.
Context {K V : Type} `{Countable K} `{Inhabited V}.

(** The shard index [getShard] computes. *)
Definition index (m : Map K V) (key : K) : nat :=
  Z.to_nat (Z.land (mhasher m key) (mask m)).

(** Every key is stored in the shard it routes to. *)
Definition routed (m : Map K V) : Prop :=
  ∀ i sh key, shards m !! i = Some sh → is_Some (sh !! key) → index m key = i.

(** The invariant of a map: [mask + 1] shards, every key in its shard. *)
Record wf (m : Map K V) : Prop := mkWf {
  wf_mask : 0 ≤ mask m;
  wf_len : length (shards m) = Z.to_nat (mask m + 1);
  wf_routed : routed m
}.

(** The content of a map, shards forgotten. *)
Definition flat (m : Map K V) : gmap K V := ⋃ shards m.

(** What re-inserting a list of entries does to a content. *)
Definition insertItem (acc : gmap K V) (t : Tuple K V) : gmap K V :=
  <[Key t:=Value t]> acc.

(** A codec whose [Unmarshal] inverts its [Marshal]. *)
Definition codec_inverse (s : SerializerFunc K V) : Prop :=
  ∀ d data, Marshal s d = Done (Ok data) → Unmarshal s data = Done (Ok d).

(** A call of one of the mutating operations of a map, and a sequence of
    such calls run one after the other. *)
Inductive call : Type :=
  | CallPut (key : K) (value : V)
  | CallRemove (key : K)
  | CallClear.

Definition runCall (m : Map K V) (c : call) : outcome (Map K V) :=
  match c with
  | CallPut key value => Put m key value
  | CallRemove key => Remove m key
  | CallClear => Done (Clear m)
  end.

Fixpoint runCalls (m : Map K V) (cs : list call) : outcome (Map K V) :=
  match cs with
  | [] => Done m
  | c :: cs' => m' ←! runCall m c; runCalls m' cs'
  end.

(** What [PutAll] does to a content, entry by entry. *)
Definition insertEntry (acc : gmap K V) (entry : K * V) : gmap K V :=
  <[entry.1:=entry.2]> acc.

End vocabulary.

Arguments call : clear implicits.

(* ===================================================================== *)
(** * Properties *)
(* ===================================================================== *)

(** ** Rounding the shard count *)

Section smear.

Lemma window_init m : window m m 1.
Proof.
  intros i Hi; split.
  - intros Hb. exists i. split; [lia | done].
  - intros (j & Hj & Hb). by replace i with j by lia.
Qed.

Lemma window_step x m w :
  0 ≤ w → window x m w → window (Z.lor x (Z.shiftr x w)) m (2 * w).
Proof.
  intros Hw Hx i Hi.
  rewrite Z.lor_spec, Z.shiftr_spec, orb_true_iff by lia.
  rewrite (Hx i), (Hx (i + w)) by lia.
  split.
  - intros [(j & Hj & Hb) | (j & Hj & Hb)]; exists j; (split; [lia | done]).
  - intros (j & Hj & Hb).
    destruct (Z_lt_le_dec j (i + w)); [left | right]; exists j; (split; [lia | done]).
Qed.

Lemma smear_ones m :
  0 < m < 2 ^ 32 →
  let n := m in
  let n := Z.lor n (Z.shiftr n 1) in
  let n := Z.lor n (Z.shiftr n 2) in
  let n := Z.lor n (Z.shiftr n 4) in
  let n := Z.lor n (Z.shiftr n 8) in
  let n := Z.lor n (Z.shiftr n 16) in
  n = Z.ones (Z.log2 m + 1).
Proof.
  intros Hm. cbv zeta.
  pose proof (window_init m) as W1.
  apply (window_step _ _ 1) in W1; [| lia].
  apply (window_step _ _ 2) in W1; [| lia].
  apply (window_step _ _ 4) in W1; [| lia].
  apply (window_step _ _ 8) in W1; [| lia].
  apply (window_step _ _ 16) in W1; [| lia].
  change (2 * 16) with 32 in W1.
  assert (Hlog : 0 ≤ Z.log2 m < 32).
  { split; [apply Z.log2_nonneg |]. apply Z.log2_lt_pow2; lia. }
  apply Z.bits_inj'. intros i Hi.
  rewrite Z.testbit_ones_nonneg by lia.
  apply eq_true_iff_eq. rewrite (W1 i Hi), Z.ltb_lt. split.
  - intros (j & Hj & Hb).
    destruct (Z_lt_le_dec (Z.log2 m) j) as [Hlt |]; [| lia].
    rewrite Z.bits_above_log2 in Hb by lia. discriminate.
  - intros Hlt. exists (Z.log2 m). split; [lia |].
    apply Z.bit_log2. lia.
Qed.

End smear.

Lemma wrap32_small x : 0 ≤ x < 2 ^ 32 → wrap32 x = x.
Proof. intros Hx. unfold wrap32. by rewrite Z.mod_small. Qed.

Lemma wrap32_range x : 0 ≤ wrap32 x < 2 ^ 32.
Proof. unfold wrap32. apply Z.mod_pos_bound. lia. Qed.

Lemma uint64Hash_range key : 0 ≤ uint64Hash key < 2 ^ 32.
Proof. apply wrap32_range. Qed.

Lemma roundUpToPowerOf2_log2_up n :
  0 < n ≤ 2 ^ 31 → roundUpToPowerOf2 n = 2 ^ Z.log2_up n.
Proof.
  intros Hn. unfold roundUpToPowerOf2.
  destruct (Z.eqb_spec n 0) as [-> | _]; [lia |].
  rewrite (wrap32_small (n - 1)) by lia.
  destruct (Z.eq_dec n 1) as [-> | Hn1]; [reflexivity |].
  rewrite smear_ones by lia.
  rewrite Z.ones_equiv, <- Z.sub_1_r, Z.sub_add.
  assert (Hlog : 0 ≤ Z.log2 (n - 1) < 31).
  { split; [apply Z.log2_nonneg |]. apply Z.log2_lt_pow2; lia. }
  rewrite wrap32_small.
  - unfold Z.log2_up. replace (1 ?= n) with Lt by (symmetry; apply Z.compare_lt_iff; lia).
    by rewrite <- Z.sub_1_r, <- Z.add_1_r.
  - split; [apply Z.pow_nonneg; lia |].
    apply Z.pow_lt_mono_r; lia.
Qed.

Lemma roundUpToPowerOf2_overflow n :
  2 ^ 31 < n < 2 ^ 32 → roundUpToPowerOf2 n = 0.
Proof.
  intros Hn. unfold roundUpToPowerOf2.
  destruct (Z.eqb_spec n 0) as [-> | _]; [lia |].
  rewrite (wrap32_small (n - 1)) by lia.
  rewrite smear_ones by lia.
  assert (Hlog : Z.log2 (n - 1) = 31).
  { apply Z.log2_unique; lia. }
  rewrite Hlog. reflexivity.
Qed.

Lemma roundUpToPowerOf2_least n :
  0 < n ≤ 2 ^ 31 → leastPowerOf2 n (roundUpToPowerOf2 n).
Proof.
  intros Hn. rewrite roundUpToPowerOf2_log2_up by done.
  pose proof (Z.log2_up_nonneg n) as Hnn.
  split; [by exists (Z.log2_up n) |].
  destruct (Z.eq_dec n 1) as [-> | Hn1].
  - split; [done |]. intros e He _. change (2 ^ Z.log2_up 1) with (2 ^ 0).
    apply Z.pow_le_mono_r; lia.
  - pose proof (Z.log2_up_spec n ltac:(lia)) as [Hlo Hhi].
    split; [done |]. intros e He Hle.
    apply Z.pow_le_mono_r; [lia |].
    destruct (Z_lt_le_dec e (Z.log2_up n)) as [Hlt |]; [| done].
    assert (2 ^ e ≤ 2 ^ Z.pred (Z.log2_up n)) by (apply Z.pow_le_mono_r; lia).
    lia.
Qed.

Lemma roundUpToPowerOf2_range n :
  0 ≤ n ≤ 2 ^ 31 → 1 ≤ roundUpToPowerOf2 n ≤ 2 ^ 31.
Proof.
  intros Hn. destruct (Z.eq_dec n 0) as [-> | Hn0]; [by compute |].
  rewrite roundUpToPowerOf2_log2_up by lia.
  pose proof (Z.log2_up_nonneg n).
  split.
  - change 1 with (2 ^ 0). apply Z.pow_le_mono_r; lia.
  - apply Z.pow_le_mono_r; [lia |].
    change 31 with (Z.log2_up (2 ^ 31)). apply Z.log2_up_le_mono; lia.
Qed.

Lemma land_le_r a b : 0 ≤ b → Z.land a b ≤ b.
Proof.
  intros Hb.
  assert (Hsub : Z.ldiff (Z.land a b) b = 0).
  { apply Z.bits_inj'. intros i Hi.
    rewrite Z.ldiff_spec, Z.land_spec, Z.bits_0.
    by destruct (Z.testbit a i), (Z.testbit b i). }
  pose proof (Z.sub_nocarry_ldiff _ _ Hsub) as Hdiff.
  assert (0 ≤ Z.ldiff b (Z.land a b)) by (apply Z.ldiff_nonneg; lia).
  lia.
Qed.

(** ** The sharded map and its flat content *)

Section cmap_props.
Context {K V : Type} `{Countable K} `{Inhabited V}.
Implicit Types (m : Map K V) (sh : gmap K V) (key : K).

Lemma index_in_range m key :
  0 ≤ mask m → length (shards m) = Z.to_nat (mask m + 1) →
  (index m key < length (shards m))%nat.
Proof.
  intros Hmask Hlen. unfold index. rewrite Hlen.
  pose proof (land_le_r (mhasher m key) (mask m) Hmask).
  assert (0 ≤ Z.land (mhasher m key) (mask m)) by (apply Z.land_nonneg; by right).
  lia.
Qed.

Lemma getShard_index m key sh :
  shards m !! index m key = Some sh → getShard m key = Done (index m key, sh).
Proof. intros Hsh. unfold getShard. fold (index m key). by rewrite Hsh. Qed.

Lemma getShard_Done m key i sh :
  getShard m key = Done (i, sh) → i = index m key ∧ shards m !! i = Some sh.
Proof.
  unfold getShard. fold (index m key).
  destruct (shards m !! index m key) eqn:Hsh; [| done].
  intros [= <- <-]. done.
Qed.

Lemma wf_getShard m key :
  wf m → ∃ sh, shards m !! index m key = Some sh.
Proof.
  intros [Hmask Hlen _]. apply lookup_lt_is_Some, index_in_range; done.
Qed.

Lemma routed_disjoint m : routed m → map_disjoint_list (shards m).
Proof.
  intros Hr i j sh1 sh2 Hne H1 H2.
  apply map_disjoint_spec. intros key v1 v2 Hk1 Hk2.
  apply Hne.
  rewrite <- (Hr i sh1 key H1 (mk_is_Some _ _ Hk1)).
  by rewrite <- (Hr j sh2 key H2 (mk_is_Some _ _ Hk2)).
Qed.

Lemma flat_lookup m key sh :
  routed m → shards m !! index m key = Some sh → flat m !! key = sh !! key.
Proof.
  intros Hr Hsh. unfold flat.
  destruct (sh !! key) as [v |] eqn:Hv.
  - eapply lookup_union_list_Some_2; [| by apply routed_disjoint | done].
    by eapply list_elem_of_lookup_2.
  - apply lookup_union_list_None_2, Forall_forall. intros sh' Hin.
    apply list_elem_of_lookup in Hin as [j Hj].
    destruct (sh' !! key) as [v' |] eqn:Hv'; [| done].
    assert (index m key = j) as Hij by (eapply Hr; [done | by rewrite Hv']).
    rewrite Hij, Hj in Hsh. injection Hsh as ->. congruence.
Qed.

Lemma m_Get_lookup key (b1 b2 : gmap K V) :
  b1 !! key = b2 !! key → m_Get key b1 = m_Get key b2.
Proof. unfold m_Get. by intros ->. Qed.

Lemma Get_flat m key : wf m → Get m key = Done (m_Get key (flat m)).
Proof.
  intros Hwf. destruct (wf_getShard m key Hwf) as [sh Hsh].
  unfold Get. rewrite (getShard_index _ _ _ Hsh). simpl.
  f_equal. apply m_Get_lookup. symmetry. apply flat_lookup; [apply Hwf | done].
Qed.

Lemma Size_fold (l : list (gmap K V)) (acc : Z) :
  fold_left (fun size sh => size + m_Size sh) l acc
  = acc + Z.of_nat (sum_list (size <$> l)).
Proof.
  revert acc. induction l as [| sh l IH]; intros acc.
  - simpl. lia.
  - rewrite fmap_cons. cbn [fold_left sum_list sum_list_with].
    rewrite IH. unfold m_Size, id. lia.
Qed.

Lemma size_union_list (l : list (gmap K V)) :
  map_disjoint_list l → size (⋃ l) = sum_list (size <$> l).
Proof.
  induction l as [| sh l IH]; simpl; [intros _; apply map_size_empty |].
  intros [Hall Hl]%map_disjoint_list_cons.
  rewrite map_size_disj_union, IH; [done | done |].
  by apply map_disjoint_union_list_r.
Qed.

Lemma Size_flat m : routed m → Size m = Z.of_nat (size (flat m)).
Proof.
  intros Hr. unfold Size, flat. rewrite Size_fold.
  by rewrite size_union_list by by apply routed_disjoint.
Qed.

(** *** [Put], [Clear] and the loading loop on the flat content *)

Lemma Put_spec m key value :
  wf m →
  ∃ m', Put m key value = Done m' ∧ wf m' ∧
        flat m' = <[key:=value]> (flat m) ∧
        mask m' = mask m ∧ mhasher m' = mhasher m ∧ opts m' = opts m ∧
        dirty m' = true.
Proof.
  intros Hwf. destruct (wf_getShard m key Hwf) as [sh Hsh].
  pose proof Hwf as [Hmask Hlen Hr].
  unfold Put. rewrite (getShard_index _ _ _ Hsh). simpl.
  set (m' := setDirty (setShard m (index m key) (m_Put key value sh)) true).
  assert (Hidx : ∀ k, index m' k = index m k) by done.
  assert (Hr' : routed m').
  { intros j sh' k Hj Hk. rewrite Hidx. simpl in Hj.
    destruct (decide (j = index m key)) as [-> | Hne].
    - rewrite list_lookup_insert_eq in Hj by by eapply lookup_lt_Some.
      injection Hj as <-. unfold m_Put in Hk.
      destruct (decide (key = k)) as [-> | Hk']; [done |].
      rewrite lookup_insert_ne in Hk by done. by eapply Hr.
    - rewrite list_lookup_insert_ne in Hj by done. by eapply Hr. }
  exists m'. split_and!; try done.
  - split; [done | | done]. simpl. by rewrite length_insert.
  - apply map_eq. intros k.
    destruct (wf_getShard m k Hwf) as [shk Hshk].
    destruct (decide (index m k = index m key)) as [Heq | Hne].
    + rewrite (flat_lookup m' k (m_Put key value sh) Hr').
      2:{ rewrite Hidx, Heq. simpl.
          apply list_lookup_insert_eq. by eapply lookup_lt_Some. }
      rewrite Heq, Hsh in Hshk. injection Hshk as <-.
      unfold m_Put. destruct (decide (key = k)) as [-> | Hk].
      * by rewrite !lookup_insert_eq.
      * rewrite !lookup_insert_ne by done. symmetry.
        apply flat_lookup; [done | by rewrite Heq].
    + rewrite (flat_lookup m' k shk Hr').
      2:{ rewrite Hidx. simpl. by rewrite list_lookup_insert_ne. }
      rewrite lookup_insert_ne by (intros ->; by apply Hne).
      symmetry. by apply flat_lookup.
Qed.

Lemma Clear_spec m :
  wf m →
  wf (Clear m) ∧ flat (Clear m) = ∅ ∧
  mask (Clear m) = mask m ∧ mhasher (Clear m) = mhasher m ∧
  opts (Clear m) = opts m.
Proof.
  intros [Hmask Hlen Hr]. split; [split | split; [| done]].
  - done.
  - simpl. by rewrite length_fmap.
  - intros i sh key Hi [v Hv]. simpl in Hi.
    rewrite list_lookup_fmap in Hi.
    destruct (shards m !! i); [| done]. injection Hi as <-.
    unfold m_Clear in Hv. by rewrite lookup_empty in Hv.
  - apply map_eq. intros key. rewrite lookup_empty.
    apply lookup_union_list_None_2, Forall_forall. intros sh Hin. simpl in Hin.
    apply list_elem_of_fmap in Hin as (sh' & -> & _). apply lookup_empty.
Qed.

Lemma putItems_spec items : ∀ m,
  wf m →
  ∃ m', putItems m items = Done m' ∧ wf m' ∧
        flat m' = foldl insertItem (flat m) items ∧
        mask m' = mask m ∧ mhasher m' = mhasher m ∧ opts m' = opts m.
Proof.
  induction items as [| t items IH]; intros m Hwf.
  - exists m. by split_and!.
  - destruct (Put_spec m (Key t) (Value t) Hwf)
      as (m1 & HPut & Hwf1 & Hflat1 & Hmask1 & Hh1 & Ho1 & _).
    destruct (IH m1 Hwf1) as (m' & Hrun & Hwf' & Hflat' & Hmask' & Hh' & Ho').
    exists m'. simpl. rewrite HPut. simpl.
    split_and!; try done; try congruence.
    by rewrite Hflat', Hflat1.
Qed.

(** *** The entries [MarshalWith] collects *)

Lemma collectItems_concat m :
  collectItems m = mjoin (shardItems <$> shards m).
Proof.
  unfold collectItems.
  enough (Hgen : ∀ l acc,
    fold_left (fun items sh => items ++ shardItems sh) l acc
    = acc ++ mjoin (shardItems <$> l)) by apply (Hgen _ []).
  induction l as [| sh l IH]; intros acc; simpl.
  - by rewrite app_nil_r.
  - by rewrite IH, app_assoc.
Qed.

Lemma elem_of_shardItems sh (t : Tuple K V) :
  t ∈ shardItems sh ↔ sh !! Key t = Some (Value t).
Proof.
  unfold shardItems, m_Keys. rewrite list_elem_of_fmap. split.
  - intros (key & -> & Hin). simpl.
    apply list_elem_of_fmap in Hin as ([k v] & -> & Hkv).
    apply elem_of_map_to_list in Hkv. simpl.
    unfold m_Get. by rewrite Hkv.
  - intros Hl. exists (Key t). split.
    + destruct t as [k v]; simpl in *. unfold m_Get. by rewrite Hl.
    + apply list_elem_of_fmap. exists (Key t, Value t). split; [done |].
      by apply elem_of_map_to_list.
Qed.

Lemma elem_of_collectItems m (t : Tuple K V) :
  t ∈ collectItems m ↔ ∃ sh, sh ∈ shards m ∧ sh !! Key t = Some (Value t).
Proof.
  rewrite collectItems_concat, list_elem_of_join. split.
  - intros (l & Ht & Hl). apply list_elem_of_fmap in Hl as (sh & -> & Hsh).
    exists sh. split; [done |]. by apply elem_of_shardItems.
  - intros (sh & Hsh & Hl). exists (shardItems sh). split.
    + by apply elem_of_shardItems.
    + apply list_elem_of_fmap. by exists sh.
Qed.

Lemma foldl_insertItem_is_Some items : ∀ (acc : gmap K V) key,
  is_Some (acc !! key) → is_Some (foldl insertItem acc items !! key).
Proof.
  induction items as [| t items IH]; intros acc key Hacc; simpl; [done |].
  apply IH. unfold insertItem.
  destruct (decide (Key t = key)) as [<- | Hne].
  - rewrite lookup_insert_eq. by eexists.
  - by rewrite lookup_insert_ne.
Qed.

Lemma foldl_insertItem_elem items : ∀ (acc : gmap K V) (t : Tuple K V),
  t ∈ items → is_Some (foldl insertItem acc items !! Key t).
Proof.
  induction items as [| t0 items IH]; intros acc t Hin; simpl.
  - by apply elem_of_nil in Hin.
  - apply elem_of_cons in Hin as [-> | Hin]; [| by apply IH].
    apply foldl_insertItem_is_Some. unfold insertItem.
    rewrite lookup_insert_eq. by eexists.
Qed.

Lemma foldl_insertItem_Some items : ∀ (acc : gmap K V) key v,
  foldl insertItem acc items !! key = Some v →
  acc !! key = Some v ∨ mkTuple key v ∈ items.
Proof.
  induction items as [| t items IH]; intros acc key v Hl; simpl in *; [by left |].
  apply IH in Hl as [Hl | Hin].
  - unfold insertItem in Hl.
    destruct (decide (Key t = key)) as [<- | Hne].
    + rewrite lookup_insert_eq in Hl. injection Hl as <-.
      right. destruct t. apply elem_of_cons. by left.
    + rewrite lookup_insert_ne in Hl by done. by left.
  - right. apply elem_of_cons. by right.
Qed.

Lemma reload_flat m :
  routed m → foldl insertItem ∅ (collectItems m) = flat m.
Proof.
  intros Hr. pose proof (routed_disjoint m Hr) as Hdisj.
  assert (Hsound : ∀ key v,
    foldl insertItem ∅ (collectItems m) !! key = Some v → flat m !! key = Some v).
  { intros key v Hl. apply foldl_insertItem_Some in Hl as [Hl | Hin].
    - by rewrite lookup_empty in Hl.
    - apply elem_of_collectItems in Hin as (sh & Hsh & Hv).
      by eapply lookup_union_list_Some_2. }
  apply map_eq. intros key.
  destruct (flat m !! key) as [v |] eqn:Hflat.
  - apply lookup_union_list_Some_1 in Hflat as Hin.
    destruct Hin as (sh & Hsh & Hv).
    assert (Hitem : mkTuple key v ∈ collectItems m).
    { apply elem_of_collectItems. by exists sh. }
    destruct (foldl_insertItem_elem _ ∅ _ Hitem) as [v' Hv']. simpl in Hv'.
    rewrite Hv'. apply Hsound in Hv'. congruence.
  - destruct (foldl insertItem ∅ (collectItems m) !! key) as [v' |] eqn:Hv'; [| done].
    apply Hsound in Hv'. congruence.
Qed.

(** *** Construction *)

Lemma createMap_shards (json : Encoding K V) (hasher_K : hasher K) numCPU options :
  let m := createMap json hasher_K numCPU options in
  shards m = replicate (Z.to_nat (roundUpToPowerOf2 (ShardCount (opts m)))) ∅ ∧
  mask m = wrap32 (roundUpToPowerOf2 (ShardCount (opts m)) - 1) ∧
  dirty m = false ∧ mhasher m = hasher_K.
Proof. done. Qed.

Lemma createMap_wf (json : Encoding K V) (hasher_K : hasher K) numCPU options :
  let m := createMap json hasher_K numCPU options in
  0 ≤ ShardCount (opts m) ≤ 2 ^ 31 → wf m ∧ flat m = ∅.
Proof.
  intros m Hn.
  destruct (createMap_shards json hasher_K numCPU options) as (Hsh & Hmask & _).
  fold m in Hsh, Hmask.
  pose proof (roundUpToPowerOf2_range _ Hn) as Hr.
  rewrite wrap32_small in Hmask by lia.
  split; [split |].
  - lia.
  - rewrite Hsh, Hmask, length_replicate. f_equal. lia.
  - intros i sh key Hi [v Hv]. rewrite Hsh in Hi.
    apply lookup_replicate in Hi as [-> _]. by rewrite lookup_empty in Hv.
  - apply map_eq. intros key. rewrite lookup_empty. unfold flat.
    apply lookup_union_list_None_2, Forall_forall. intros sh Hin.
    rewrite Hsh in Hin. apply elem_of_replicate in Hin as [-> _].
    apply lookup_empty.
Qed.

(** For a requested count of at most 2^31 the map has the least power of
    two of shards. *)
Lemma createMap_leastPowerOf2 (json : Encoding K V) (hasher_K : hasher K) numCPU options :
  let m := createMap json hasher_K numCPU options in
  0 ≤ ShardCount (opts m) ≤ 2 ^ 31 →
  leastPowerOf2 (Z.max 1 (ShardCount (opts m))) (Z.of_nat (length (shards m))) ∧
  mask m + 1 = Z.of_nat (length (shards m)).
Proof.
  intros m Hn.
  destruct (createMap_shards json hasher_K numCPU options) as (Hsh & Hmask & _).
  fold m in Hsh, Hmask.
  pose proof (roundUpToPowerOf2_range _ Hn) as Hr.
  rewrite wrap32_small in Hmask by lia.
  rewrite Hsh, Hmask, length_replicate, Z2Nat.id by lia.
  split; [| lia].
  destruct (Z.eq_dec (ShardCount (opts m)) 0) as [-> | Hne].
  - change (roundUpToPowerOf2 0) with (roundUpToPowerOf2 1).
    apply roundUpToPowerOf2_least. lia.
  - rewrite Z.max_r by lia. apply roundUpToPowerOf2_least. lia.
Qed.

End cmap_props.

(** ** Test doubles: the byte codec is an inverse pair *)

Lemma byteOfZ_zOfByte z b : ByteCodec.byteOfZ z = Some b → ByteCodec.zOfByte b = z.
Proof.
  unfold ByteCodec.byteOfZ, ByteCodec.zOfByte.
  destruct ((0 <=? z) && (z <? 256)) eqn:Hrange; [| done].
  intros Hb. apply Byte.to_of_N in Hb. rewrite Hb. lia.
Qed.

Lemma decodeItems_encodeItems items : ∀ data,
  ByteCodec.encodeItems items = Ok data → ByteCodec.decodeItems data = Ok items.
Proof.
  induction items as [| [k v] items IH]; intros data; simpl.
  - by intros [= <-].
  - destruct (ByteCodec.byteOfZ k) as [bk |] eqn:Hk; [| done].
    destruct (ByteCodec.byteOfZ v) as [bv |] eqn:Hv; [| done].
    destruct (ByteCodec.encodeItems items) as [rest |]; [| done].
    intros [= <-]. simpl. rewrite (IH rest eq_refl).
    by rewrite (byteOfZ_zOfByte _ _ Hk), (byteOfZ_zOfByte _ _ Hv).
Qed.

Lemma ByteCodec_inverse : codec_inverse (JsonSerializer ByteCodec.encoding).
Proof.
  intros [items] data. unfold Marshal, Unmarshal. simpl.
  intros [= Henc]. by rewrite (decodeItems_encodeItems _ _ Henc).
Qed.

(** ** The claims *)

Section claims.
Context {K V : Type} `{Countable K} `{Inhabited V}.
Implicit Types (m : Map K V) (sh : gmap K V) (key : K).

(** C1 (round trip).  Insert any list of entries with [Put] into a fresh
    map, serialize it with [MarshalWith] and load the bytes with
    [UnmarshalWith] into another fresh map of the same key and value types,
    using a codec whose [Unmarshal] inverts its [Marshal]: the loaded map
    has the same [Size] and answers every [Get] as the original does.  Both
    maps are built with a requested shard count of at most 2^31. *)
Theorem MarshalWith_UnmarshalWith_roundtrip
    (json : Encoding K V) (hasher_K : hasher K) (numCPU : Z)
    (options1 options2 : list (Option K V))
    (pairs : list (Tuple K V)) (serializer : SerializerFunc K V) :
  let c1 := createMap json hasher_K numCPU options1 in
  let c2 := createMap json hasher_K numCPU options2 in
  0 ≤ ShardCount (opts c1) ≤ 2 ^ 31 →
  0 ≤ ShardCount (opts c2) ≤ 2 ^ 31 →
  codec_inverse serializer →
  ∃ m1, putItems c1 pairs = Done m1 ∧
    ∀ data, MarshalWith m1 serializer = Done (Ok data) →
      ∃ m2, UnmarshalWith c2 data serializer = Done (None, m2) ∧
            Size m2 = Size m1 ∧
            ∀ key, Get m2 key = Get m1 key.
Proof.
  intros c1 c2 Hn1 Hn2 Hinv.
  destruct (createMap_wf json hasher_K numCPU options1 Hn1) as [Hwf1 _].
  destruct (createMap_wf json hasher_K numCPU options2 Hn2) as [Hwf2 _].
  fold c1 in Hwf1. fold c2 in Hwf2.
  destruct (putItems_spec pairs c1 Hwf1) as (m1 & Hrun1 & Hwfm1 & _).
  exists m1. split; [done |]. intros data Hmarshal.
  unfold MarshalWith in Hmarshal. apply Hinv in Hmarshal.
  destruct (Clear_spec c2 Hwf2) as (Hwfc & Hflatc & _).
  destruct (putItems_spec (collectItems m1) (Clear c2) Hwfc)
    as (m2 & Hrun2 & Hwfm2 & Hflat2 & _).
  rewrite Hflatc, reload_flat in Hflat2 by apply Hwfm1.
  exists (setDirty m2 false). split.
  - unfold UnmarshalWith. rewrite Hmarshal. simpl. by rewrite Hrun2.
  - assert (Hwf' : wf (setDirty m2 false)) by (by destruct Hwfm2).
    assert (Hflat' : flat (setDirty m2 false) = flat m1) by done.
    split.
    + rewrite !Size_flat by (apply Hwf' || apply Hwfm1). by rewrite Hflat'.
    + intros key. rewrite !Get_flat by done. by rewrite Hflat'.
Qed.

(** C3 (code evaluated where it departs from the claim).  When the
    configured codec is not JSON-compatible ([isJSON] is false, as for
    gob), [getJSONSerializer] still returns the configured codec, no
    fallback is selected, and [MarshalJSON] and [UnmarshalJSON] run the
    configured codec. *)
Theorem getJSONSerializer_keeps_non_JSON_codec
    (json : Encoding K V) m (serializer : SerializerFunc K V) :
  Serializer (opts m) = Some serializer →
  IsJSON serializer = false →
  getJSONSerializer json m = serializer ∧
  IsJSON (getJSONSerializer json m) = false ∧
  MarshalJSON json m = MarshalWith m serializer ∧
  ∀ data, UnmarshalJSON json m data = UnmarshalWith m data serializer.
Proof.
  intros Hs Hflag.
  assert (Hget : getJSONSerializer json m = serializer).
  { unfold getJSONSerializer. by rewrite Hs. }
  unfold MarshalJSON, UnmarshalJSON. rewrite Hget. by split_and!.
Qed.

(** C7 (removal).  [Remove] of a key that [Get] does not find returns the
    map unchanged, so the dirty flag and every [Get] result are as before;
    [Remove] of a key that [Get] finds sets the dirty flag and makes [Get]
    of that key return found = false. *)
Theorem Remove_absent_present m key :
  (∀ v, Get m key = Done (v, false) → Remove m key = Done m) ∧
  (∀ v, Get m key = Done (v, true) →
     ∃ m', Remove m key = Done m' ∧ dirty m' = true ∧
           Get m' key = Done (inhabitant, false)).
Proof.
  split; intros v HGet; unfold Get, Remove in *.
  - destruct (getShard m key) as [[i sh] |]; [| done]. simpl in *.
    injection HGet as HGet. by rewrite HGet.
  - destruct (getShard m key) as [[i sh] |] eqn:Hsh; [| done]. simpl in *.
    injection HGet as HGet. rewrite HGet. simpl.
    apply getShard_Done in Hsh as [-> Hsh].
    eexists. split; [done |]. split; [done |].
    erewrite getShard_index; simpl.
    + unfold m_Get, m_Remove. by rewrite lookup_delete_eq.
    + unfold index. simpl. apply list_lookup_insert_eq. by eapply lookup_lt_Some.
Qed.

(** C10.  In every state of a map, [Empty] returns true exactly when [Size]
    returns 0. *)
Theorem Empty_eq_Size_zero m : Empty m = (Size m =? 0).
Proof.
  unfold Empty, Size. rewrite Size_fold. simpl.
  induction (shards m) as [| sh l IH]; [done |].
  rewrite fmap_cons. cbn [Empty_from sum_list sum_list_with]. unfold id.
  unfold m_Empty, m_Size at 1.
  destruct (Z.eqb_spec (Z.of_nat (size sh)) 0) as [Hz | Hnz]; simpl.
  - rewrite IH, Nat2Z.inj_add, Hz. done.
  - symmetry. apply Z.eqb_neq. lia.
Qed.

End claims.

(** ** The claims on the persistence layer *)

Section file_claims.
Context {K V : Type} `{Countable K} `{Inhabited V}.
Context {W : Type} (os : OS W).
Implicit Types (m : Map K V) (w : W) (filename : string).

Lemma eqb_empty_false filename : filename ≠ ""%string → String.eqb filename "" = false.
Proof. intros Hne. by apply String.eqb_neq. Qed.

(** Configuration errors that are reported before anything else runs. *)
Lemma SaveToFile_empty_filename m w :
  SaveToFile os m "" w = Done (Some (errorString "filename cannot be empty"), m, w).
Proof. done. Qed.

Lemma LoadFromFile_empty_filename m w :
  LoadFromFile os m "" w = Done (Some (errorString "filename cannot be empty"), m, w).
Proof. done. Qed.

Lemma LoadFromFile_no_serializer m filename w :
  filename ≠ ""%string →
  (Serializer (opts m) = None ∨
   ∃ s, Serializer (opts m) = Some s ∧ UnmarshalFunc s = None) →
  LoadFromFile os m filename w
  = Done (Some (errorString "no serializer configured for unmarshaling"), m, w).
Proof.
  intros Hne Hs. unfold LoadFromFile. rewrite eqb_empty_false by done.
  destruct Hs as [-> | (s & -> & ->)]; done.
Qed.

(** [SaveToFile] without a codec reports the error only after the
    directory step has run. *)
Lemma SaveToFile_no_serializer m filename w w' :
  filename ≠ ""%string →
  (Serializer (opts m) = None ∨
   ∃ s, Serializer (opts m) = Some s ∧ MarshalFunc s = None) →
  ensureDir os filename w = (None, w') →
  SaveToFile os m filename w
  = Done (Some (errorString "no serializer configured for marshaling"), m, w').
Proof.
  intros Hne Hs Hdir. unfold SaveToFile. rewrite eqb_empty_false, Hdir by done.
  destruct Hs as [-> | (s & -> & ->)]; done.
Qed.

(** C2 (decode errors).  When the codec's [Unmarshal] fails on the bytes,
    [UnmarshalWith] returns that error and the map as it was; so does
    [LoadFromFile] on a file that exists, can be read and holds these
    (non-empty) bytes, with the error wrapped.  The map returned is the map
    given: no [Clear] ran, every [Get] result and the dirty flag are as
    before. *)
Theorem decode_error_leaves_map_unchanged
    m (data : bytes) (serializer : SerializerFunc K V) unmarshal err :
  UnmarshalFunc serializer = Some unmarshal →
  unmarshal data = Err err →
  UnmarshalWith m data serializer = Done (Some err, m) ∧
  ∀ filename w w1 w2,
    filename ≠ ""%string →
    Serializer (opts m) = Some serializer →
    StatNotExist os filename w = (false, w1) →
    ReadFile os filename w1 = (Ok data, w2) →
    data ≠ [] →
    LoadFromFile os m filename w
    = Done (Some (wrapError ("failed to unmarshal data from " ++ filename) err), m, w2).
Proof.
  intros Hf Herr.
  assert (HU : UnmarshalWith m data serializer = Done (Some err, m)).
  { unfold UnmarshalWith, Unmarshal. rewrite Hf. simpl. by rewrite Herr. }
  split; [done |].
  intros filename w w1 w2 Hne Hs Hstat Hread Hdata.
  unfold LoadFromFile.
  rewrite eqb_empty_false, Hs, Hf, Hstat, Hread by done.
  destruct data as [| b data]; [done |]. simpl length. cbn [Nat.eqb].
  by rewrite HU.
Qed.

(** C4, as amended.  For a map that holds at least one entry: when
    [SaveToFile] has returned nil, the dirty flag is clear, and a second
    [SaveToFile] on the same path returns nil whenever its directory step
    does, leaving the map as it is and the world as the directory step left
    it: nothing is marshalled, no file is written or renamed.  For a path
    that needs no directory step the world is untouched. *)
Theorem SaveToFile_twice_nonempty m filename w m1 w1 :
  0 < Size m →
  SaveToFile os m filename w = Done (None, m1, w1) →
  dirty m1 = false ∧
  (∀ w2, ensureDir os filename w1 = (None, w2) →
         SaveToFile os m1 filename w1 = Done (None, m1, w2)) ∧
  (IsAbs os filename = true ∨ Dir os filename = "."%string
     ∨ Dir os filename = ""%string →
   SaveToFile os m1 filename w1 = Done (None, m1, w1)).
Proof.
  intros Hsize Hsave.
  assert (Hsecond : ∀ w2, filename ≠ ""%string →
    dirty m1 = false → opts m1 = opts m → Size m1 = Size m →
    (∃ s f, Serializer (opts m) = Some s ∧ MarshalFunc s = Some f) →
    ensureDir os filename w1 = (None, w2) →
    SaveToFile os m1 filename w1 = Done (None, m1, w2)).
  { intros w2 Hne Hd Ho Hsz (s & f & Hs & Hf) Hdir. unfold SaveToFile.
    rewrite eqb_empty_false, Hdir, Ho, Hs, Hf, Hsz, Hd by done.
    by replace (Size m >? 0) with true by (symmetry; apply Z.gtb_lt; lia). }
  assert (Hfirst : filename ≠ ""%string ∧ dirty m1 = false ∧ opts m1 = opts m
                   ∧ Size m1 = Size m
                   ∧ ∃ s f, Serializer (opts m) = Some s ∧ MarshalFunc s = Some f).
  { unfold SaveToFile in Hsave.
    destruct (String.eqb_spec filename "") as [-> | Hne]; [done |].
    split; [done |].
    destruct (ensureDir os filename w) as [[e |] w']; [done |].
    destruct (Serializer (opts m)) as [s |] eqn:Hs; [| done].
    destruct (MarshalFunc s) as [f |] eqn:Hf; [| done].
    destruct ((Size m >? 0) && negb (dirty m)) eqn:Hskip.
    - injection Hsave as <- <-.
      apply andb_true_iff in Hskip as [_ Hd%negb_true_iff].
      split_and!; eauto.
    - destruct (MarshalWith m s) as [[data | e] |]; simpl in Hsave; try done.
      destruct (WriteFile os (filename ++ ".tmp") data w') as [[e |] w2]; [done |].
      destruct (Rename os (filename ++ ".tmp") filename w2) as [[e |] w3]; [done |].
      injection Hsave as <- <-. split_and!; eauto. }
  destruct Hfirst as (Hne & Hd & Ho & Hsz & Hcodec).
  split; [done |]. split.
  - intros w2. by apply Hsecond.
  - intros Hnodir. apply Hsecond; try done.
    unfold ensureDir.
    destruct (IsAbs os filename); [done |]. simpl.
    destruct Hnodir as [? | [-> | ->]]; done.
Qed.

End file_claims.

(** ** The claims on hashing and on construction *)

Lemma Float32_isZero_not_NaN b : Float32.isZero b = true → Float32.isNaN b = false.
Proof.
  unfold Float32.isZero, Float32.isNaN. intros Hz%Z.eqb_eq.
  replace (Z.land b 0x7F800000) with (Z.land (Z.land b 0x7FFFFFFF) 0x7F800000)
    by (by rewrite <- Z.land_assoc).
  by rewrite Hz.
Qed.

Lemma Float64_isZero_not_NaN b : Float64.isZero b = true → Float64.isNaN b = false.
Proof.
  unfold Float64.isZero, Float64.isNaN. intros Hz%Z.eqb_eq.
  replace (Z.land b 0x7FF0000000000000)
    with (Z.land (Z.land b 0x7FFFFFFFFFFFFFFF) 0x7FF0000000000000)
    by (by rewrite <- Z.land_assoc).
  by rewrite Hz.
Qed.

(** C8 (float hashing).  For [float32Hash] and [float64Hash] alike: a NaN
    hashes to 0x7FFFFFFF; a zero of either sign hashes to 0; any other
    value hashes to the integer mixer applied to its bit pattern; and two
    keys that are equal as floats have equal hashes. *)
Theorem float_hash_spec :
  ((∀ b, Float32.isNaN b = true → float32Hash b = 0x7FFFFFFF) ∧
   (∀ b, Float32.isZero b = true → float32Hash b = 0) ∧
   (∀ b, Float32.isNaN b = false → Float32.isZero b = false →
         float32Hash b = uint32Hash b) ∧
   (∀ a b, Float32.eqb a b = true → float32Hash a = float32Hash b)) ∧
  ((∀ b, Float64.isNaN b = true → float64Hash b = 0x7FFFFFFF) ∧
   (∀ b, Float64.isZero b = true → float64Hash b = 0) ∧
   (∀ b, Float64.isNaN b = false → Float64.isZero b = false →
         float64Hash b = uint64Hash b) ∧
   (∀ a b, Float64.eqb a b = true → float64Hash a = float64Hash b)).
Proof.
  split; split_and!.
  - intros b Hn. unfold float32Hash. by rewrite Hn.
  - intros b Hz. unfold float32Hash.
    by rewrite (Float32_isZero_not_NaN b Hz), Hz.
  - intros b Hn Hz. unfold float32Hash. by rewrite Hn, Hz.
  - intros a b. unfold Float32.eqb, float32Hash.
    destruct (Float32.isNaN a), (Float32.isNaN b); simpl; try done.
    destruct (Float32.isZero a) eqn:Ha, (Float32.isZero b) eqn:Hb; simpl;
      try done; intros ->%Z.eqb_eq; congruence.
  - intros b Hn. unfold float64Hash. by rewrite Hn.
  - intros b Hz. unfold float64Hash.
    by rewrite (Float64_isZero_not_NaN b Hz), Hz.
  - intros b Hn Hz. unfold float64Hash. by rewrite Hn, Hz.
  - intros a b. unfold Float64.eqb, float64Hash.
    destruct (Float64.isNaN a), (Float64.isNaN b); simpl; try done.
    destruct (Float64.isZero a) eqn:Ha, (Float64.isZero b) eqn:Hb; simpl;
      try done; intros ->%Z.eqb_eq; congruence.
Qed.

Lemma hugeMap_shards : shards Example.hugeMap = [].
Proof. by vm_compute. Qed.

(** C6 (code evaluated where it departs from the claim).  A requested
    shard count of 2^31 + 1 yields a map with no shard at all and the mask
    0xFFFFFFFF, where the least power of two above the request is 2^32. *)
Theorem createMap_shard_count_overflow :
  ShardCount (opts Example.hugeMap) = 2 ^ 31 + 1 ∧
  roundUpToPowerOf2 (2 ^ 31 + 1) = 0 ∧
  shards Example.hugeMap = [] ∧
  mask Example.hugeMap = 2 ^ 32 - 1.
Proof. by vm_compute. Qed.

(** C9 (code evaluated where it departs from the claim).  On the map built
    for a requested shard count of 2^31 + 1 the shards slice is empty
    while the mask is 0xFFFFFFFF: [getShard] indexes out of range, and
    [Put], [Get] and [Remove] panic. *)
Theorem getShard_out_of_range_after_overflow :
  length (shards Example.hugeMap) = 0%nat ∧
  Z.of_nat (length (shards Example.hugeMap))
    ≤ Z.land (mhasher Example.hugeMap 7) (mask Example.hugeMap) ∧
  Put Example.hugeMap 7 70 = Panic ∧
  Get Example.hugeMap 7 = Panic ∧
  Remove Example.hugeMap 7 = Panic.
Proof.
  unfold Put, Get, Remove, getShard. rewrite hugeMap_shards, !lookup_nil.
  by split_and!.
Qed.


(** ** Concrete runs *)

(** C4 as stated fails on an empty map: [SaveToFile] returns nil, clears
    the dirty flag and has written once; the second call on the same path,
    with no mutation in between, writes the file again. *)
Lemma SaveToFile_twice_empty_writes_twice :
  let m1 := setDirty Example.emptyMap false in
  let w1 := MemFS.mkWorld {[ "x.json"%string := [] ]} ∅ 1 in
  let w2 := MemFS.mkWorld {[ "x.json"%string := [] ]} ∅ 2 in
  Size Example.emptyMap = 0 ∧
  SaveToFile MemFS.os Example.emptyMap "x.json" MemFS.empty = Done (None, m1, w1) ∧
  dirty m1 = false ∧
  SaveToFile MemFS.os m1 "x.json" w1 = Done (None, m1, w2) ∧
  MemFS.writes w1 = 1%nat ∧ MemFS.writes w2 = 2%nat.
Proof. by split_and!. Qed.

(** C5 (code evaluated where it departs from the claim).  On a map
    without a codec, [SaveToFile] to a relative path inside a directory
    returns the configuration error, but the world it leaves holds the
    directory, which the world before did not. *)
Theorem SaveToFile_no_codec_creates_directory :
  let w' := MemFS.mkWorld ∅ {[ "data"%string ]} 0 in
  Serializer (opts Example.noCodecMap) = None ∧
  SaveToFile MemFS.os Example.noCodecMap "data/x.json" MemFS.empty
  = Done (Some (errorString "no serializer configured for marshaling"),
          Example.noCodecMap, w') ∧
  bool_decide ("data"%string ∈ MemFS.dirs w') = true ∧
  bool_decide ("data"%string ∈ MemFS.dirs MemFS.empty) = false.
Proof. by split_and!. Qed.

(** ** Witnesses *)

Lemma roundtrip_witness :
  ∃ m1,
    putItems (Example.new [WithShardCount 8])
      [mkTuple 1 10; mkTuple 2 20; mkTuple 1 11] = Done m1 ∧
    ∀ data,
      MarshalWith m1 (JsonSerializer ByteCodec.encoding) = Done (Ok data) →
      ∃ m2,
        UnmarshalWith (Example.new [WithShardCount 3]) data
          (JsonSerializer ByteCodec.encoding) = Done (None, m2) ∧
        Size m2 = Size m1 ∧ ∀ key, Get m2 key = Get m1 key.
Proof.
  apply (MarshalWith_UnmarshalWith_roundtrip ByteCodec.encoding intHasher 1
           [WithShardCount 8] [WithShardCount 3]
           [mkTuple 1 10; mkTuple 2 20; mkTuple 1 11]
           (JsonSerializer ByteCodec.encoding)).
  - simpl. lia.
  - simpl. lia.
  - apply ByteCodec_inverse.
Defined.

Lemma decode_error_witness :
  UnmarshalWith Example.oneEntryMap [Byte.x01] (JsonSerializer ByteCodec.encoding)
  = Done (Some (errorString "unexpected end of input"), Example.oneEntryMap) ∧
  LoadFromFile MemFS.os Example.oneEntryMap "bad.bin" Example.badFileWorld
  = Done (Some (wrapError "failed to unmarshal data from bad.bin"
                  (errorString "unexpected end of input")),
          Example.oneEntryMap, Example.badFileWorld).
Proof.
  destruct (decode_error_leaves_map_unchanged MemFS.os Example.oneEntryMap
              [Byte.x01] (JsonSerializer ByteCodec.encoding)
              (decode ByteCodec.encoding)
              (errorString "unexpected end of input") eq_refl eq_refl)
    as [HU HL].
  split; [exact HU |].
  apply (HL "bad.bin"%string Example.badFileWorld Example.badFileWorld
            Example.badFileWorld); try reflexivity; discriminate.
Defined.

Lemma getJSONSerializer_witness :
  getJSONSerializer ByteCodec.encoding Example.gobMap
  = GobSerializer ByteCodec.encoding ∧
  IsJSON (getJSONSerializer ByteCodec.encoding Example.gobMap) = false ∧
  MarshalJSON ByteCodec.encoding Example.gobMap
  = MarshalWith Example.gobMap (GobSerializer ByteCodec.encoding) ∧
  ∀ data, UnmarshalJSON ByteCodec.encoding Example.gobMap data
          = UnmarshalWith Example.gobMap data (GobSerializer ByteCodec.encoding).
Proof.
  apply (getJSONSerializer_keeps_non_JSON_codec ByteCodec.encoding
           Example.gobMap (GobSerializer ByteCodec.encoding)); reflexivity.
Defined.

Lemma SaveToFile_twice_witness :
  let m1 := setDirty Example.oneEntryMap false in
  let w1 := MemFS.mkWorld {[ "x.json"%string := [Byte.x01; Byte.x0a] ]} ∅ 1 in
  0 < Size Example.oneEntryMap ∧
  SaveToFile MemFS.os Example.oneEntryMap "x.json" MemFS.empty = Done (None, m1, w1) ∧
  dirty m1 = false ∧
  SaveToFile MemFS.os m1 "x.json" w1 = Done (None, m1, w1).
Proof.
  intros m1 w1.
  assert (Hsize : 0 < Size Example.oneEntryMap) by reflexivity.
  assert (Hsave : SaveToFile MemFS.os Example.oneEntryMap "x.json" MemFS.empty
                  = Done (None, m1, w1)) by reflexivity.
  destruct (SaveToFile_twice_nonempty MemFS.os Example.oneEntryMap
              "x.json" MemFS.empty m1 w1 Hsize Hsave) as (Hd & _ & Hsame).
  split; [exact Hsize |]. split; [exact Hsave |]. split; [exact Hd |].
  apply Hsame. right. left. reflexivity.
Defined.

Lemma Remove_witness :
  Remove Example.oneEntryMap 2 = Done Example.oneEntryMap ∧
  ∃ m', Remove Example.oneEntryMap 1 = Done m' ∧ dirty m' = true ∧
        Get m' 1 = Done (inhabitant, false).
Proof.
  split.
  - destruct (Remove_absent_present Example.oneEntryMap 2) as [Habsent _].
    apply (Habsent inhabitant). reflexivity.
  - destruct (Remove_absent_present Example.oneEntryMap 1) as [_ Hpresent].
    apply (Hpresent 10). reflexivity.
Defined.

Lemma float_hash_witness :
  float32Hash 0x7FC00000 = 0x7FFFFFFF ∧
  float32Hash 0x80000000 = 0 ∧
  float32Hash 0x3F800000 = uint32Hash 0x3F800000 ∧
  float32Hash 0 = float32Hash 0x80000000 ∧
  float64Hash 0x7FF8000000000000 = 0x7FFFFFFF ∧
  float64Hash 0x8000000000000000 = 0 ∧
  float64Hash 0x3FF0000000000000 = uint64Hash 0x3FF0000000000000 ∧
  float64Hash 0 = float64Hash 0x8000000000000000.
Proof.
  destruct float_hash_spec
    as [(Hnan32 & Hzero32 & Hmix32 & Heq32) (Hnan64 & Hzero64 & Hmix64 & Heq64)].
  split; [apply Hnan32; reflexivity |].
  split; [apply Hzero32; reflexivity |].
  split; [apply Hmix32; reflexivity |].
  split; [apply Heq32; reflexivity |].
  split; [apply Hnan64; reflexivity |].
  split; [apply Hzero64; reflexivity |].
  split; [apply Hmix64; reflexivity |].
  apply Heq64; reflexivity.
Defined.

(* ===================================================================== *)
(** * Further properties of the code *)
(* ===================================================================== *)

(** ** Single-key operations on the flat content *)

Section more_cmap_props.
Context {K V : Type} `{Countable K} `{Inhabited V}.
Implicit Types (m : Map K V) (sh : gmap K V) (key : K).

(** Replacing the shard at [i] by a map whose keys all route to [i]. *)
Lemma setShard_flat m i sh sh' :
  wf m → shards m !! i = Some sh →
  (∀ k, is_Some (sh' !! k) → index m k = i) →
  wf (setShard m i sh') ∧
  ∀ k, flat (setShard m i sh') !! k
       = if decide (index m k = i) then sh' !! k else flat m !! k.
Proof.
  intros Hwf Hsh Hkeys. pose proof Hwf as [Hmask Hlen Hr].
  set (m' := setShard m i sh').
  assert (Hidx : ∀ k, index m' k = index m k) by done.
  assert (Hi : (i < length (shards m))%nat) by by eapply lookup_lt_Some.
  assert (Hr' : routed m').
  { intros j shj k Hj Hk. rewrite Hidx. simpl in Hj.
    destruct (decide (j = i)) as [-> | Hne].
    - rewrite list_lookup_insert_eq in Hj by done. injection Hj as <-. by apply Hkeys.
    - rewrite list_lookup_insert_ne in Hj by done. by eapply Hr. }
  split.
  - split; [done | | done]. simpl. by rewrite length_insert.
  - intros k. destruct (wf_getShard m k Hwf) as [shk Hshk].
    destruct (decide (index m k = i)) as [Heq | Hne].
    + apply (flat_lookup m' k sh' Hr'). rewrite Hidx, Heq. simpl.
      by apply list_lookup_insert_eq.
    + rewrite (flat_lookup m' k shk Hr').
      * symmetry. by apply flat_lookup.
      * rewrite Hidx. simpl. by rewrite list_lookup_insert_ne.
Qed.

Lemma m_Get_found key (b : gmap K V) :
  (m_Get key b).2 = bool_decide (is_Some (b !! key)).
Proof.
  unfold m_Get. by destruct (b !! key).
Qed.

Lemma Remove_spec m key :
  wf m →
  ∃ m', Remove m key = Done m' ∧ wf m' ∧
        flat m' = delete key (flat m) ∧
        mask m' = mask m ∧ mhasher m' = mhasher m ∧ opts m' = opts m ∧
        dirty m' = dirty m || (m_Get key (flat m)).2.
Proof.
  intros Hwf. destruct (wf_getShard m key Hwf) as [sh Hsh].
  pose proof Hwf as [Hmask Hlen Hr].
  pose proof (flat_lookup m key sh Hr Hsh) as Hflat.
  unfold Remove. rewrite (getShard_index _ _ _ Hsh). simpl.
  rewrite (m_Get_lookup key (flat m) sh Hflat).
  destruct (m_Get key sh).2 eqn:Hok.
  - destruct (setShard_flat m (index m key) sh (m_Remove key sh) Hwf Hsh)
      as [Hwf' Hlook].
    { intros k [v Hk]. unfold m_Remove in Hk.
      apply lookup_delete_Some in Hk as [_ Hk]. eapply Hr; [done | by eexists]. }
    eexists. split; [done |]. split_and!; try done.
    + by destruct Hwf'.
    + apply map_eq. intros k.
      change (flat (setDirty (setShard m (index m key) (m_Remove key sh)) true))
        with (flat (setShard m (index m key) (m_Remove key sh))).
      rewrite Hlook. unfold m_Remove.
      destruct (decide (key = k)) as [<- | Hne].
      * rewrite decide_True by done. by rewrite !lookup_delete_eq.
      * rewrite (lookup_delete_ne (flat m)) by done.
        destruct (decide (index m k = index m key)) as [Heq | ?]; [| done].
        rewrite lookup_delete_ne by done. symmetry.
        apply flat_lookup; [done | by rewrite Heq].
    + simpl. by rewrite orb_true_r.
  - exists m. split; [done |]. split_and!; try done.
    + rewrite m_Get_found in Hok. apply bool_decide_eq_false in Hok.
      symmetry. apply delete_id. rewrite Hflat.
      destruct (sh !! key) eqn:E; [| done]. exfalso. apply Hok. by eexists.
    + by rewrite orb_false_r.
Qed.

Lemma wf_length m m' : wf m → wf m' → mask m' = mask m →
  length (shards m') = length (shards m).
Proof. intros [_ Hl _] [_ Hl' _] Hmask. by rewrite Hl, Hl', Hmask. Qed.

Lemma Get_Done_found m key r :
  wf m → Get m key = Done r → r.2 = bool_decide (is_Some (flat m !! key)).
Proof.
  intros Hwf HGet. rewrite Get_flat in HGet by done.
  injection HGet as <-. apply m_Get_found.
Qed.

Lemma Empty_from_Size m : Empty m = (Size m =? 0).
Proof.
  unfold Empty, Size. rewrite Size_fold. simpl.
  induction (shards m) as [| sh l IH]; [done |].
  rewrite fmap_cons. cbn [Empty_from sum_list sum_list_with]. unfold id.
  unfold m_Empty, m_Size at 1.
  destruct (Z.eqb_spec (Z.of_nat (size sh)) 0) as [Hz | Hnz]; simpl.
  - rewrite IH, Nat2Z.inj_add, Hz. done.
  - symmetry. apply Z.eqb_neq. lia.
Qed.

(** X1.  [Put] on a map that satisfies the invariant returns, sets the
    dirty flag, makes [Get] of the key return the value put, leaves [Get]
    of every other key as it was, and grows [Size] by one exactly when the
    key was not there before; the map is then not [Empty]. *)
Theorem Put_then_Get m key value :
  wf m →
  ∃ m', Put m key value = Done m' ∧ wf m' ∧
        IsDirty m' = true ∧
        Get m' key = Done (value, true) ∧
        (∀ key', key' ≠ key → Get m' key' = Get m key') ∧
        (∀ r, Get m key = Done r →
              Size m' = if r.2 then Size m else Size m + 1) ∧
        Empty m' = false.
Proof.
  intros Hwf.
  destruct (Put_spec m key value Hwf) as (m' & HPut & Hwf' & Hflat & _ & _ & _ & Hd).
  exists m'. split_and!; try done; cycle 3.
  - rewrite Empty_from_Size, Size_flat, Hflat by apply Hwf'.
    apply Z.eqb_neq. intros Hz.
    assert (Hempty : <[key:=value]> (flat m) = ∅) by (apply map_size_empty_inv; lia).
    by apply insert_non_empty in Hempty.
  - rewrite Get_flat, Hflat by done. unfold m_Get. by rewrite lookup_insert_eq.
  - intros key' Hne. rewrite !Get_flat, Hflat by done.
    apply f_equal, m_Get_lookup. by rewrite lookup_insert_ne.
  - intros r HGet. rewrite (Get_Done_found m key r Hwf HGet).
    rewrite !Size_flat, Hflat by (apply Hwf || apply Hwf').
    case_bool_decide as Hin.
    + by rewrite map_size_insert_Some.
    + rewrite map_size_insert_None by (by apply eq_None_not_Some). lia.
Qed.

(** X2.  [Remove] on a map that satisfies the invariant returns, makes
    [Get] of the key find nothing, leaves [Get] of every other key as it
    was, shrinks [Size] by one exactly when the key was there, and raises
    the dirty flag only in that case. *)
Theorem Remove_then_Get m key :
  wf m →
  ∃ m' r, Get m key = Done r ∧ Remove m key = Done m' ∧ wf m' ∧
        Get m' key = Done (inhabitant, false) ∧
        (∀ key', key' ≠ key → Get m' key' = Get m key') ∧
        Size m' = (if r.2 then Size m - 1 else Size m) ∧
        IsDirty m' = IsDirty m || r.2.
Proof.
  intros Hwf.
  destruct (Remove_spec m key Hwf) as (m' & HRem & Hwf' & Hflat & _ & _ & _ & Hd).
  exists m', (m_Get key (flat m)). split; [by apply Get_flat |].
  split_and!; try done.
  - rewrite Get_flat, Hflat by done. unfold m_Get. by rewrite lookup_delete_eq.
  - intros key' Hne. rewrite !Get_flat, Hflat by done.
    apply f_equal, m_Get_lookup. by rewrite lookup_delete_ne.
  - rewrite m_Get_found, !Size_flat, Hflat by (apply Hwf || apply Hwf').
    case_bool_decide as Hin.
    + rewrite map_size_delete_Some by done. destruct Hin as [v Hv].
      assert (size (flat m) ≠ 0%nat); [| lia].
      intros Hz%map_size_empty_inv. by rewrite Hz, lookup_empty in Hv.
    + by rewrite delete_id by (by apply eq_None_not_Some).
Qed.

(** X3.  [Clear] leaves a map of size 0 that is [Empty], has no key and is
    dirty, with as many shards and the same mask as before; clearing twice
    is clearing once.  When shard access is in bounds, [Get] then finds no
    key. *)
Theorem Clear_empties m :
  Size (Clear m) = 0 ∧ Empty (Clear m) = true ∧ Keys (Clear m) = [] ∧
  IsDirty (Clear m) = true ∧
  length (shards (Clear m)) = length (shards m) ∧ mask (Clear m) = mask m ∧
  Clear (Clear m) = Clear m ∧
  (wf m → ∀ key, Get (Clear m) key = Done (inhabitant, false)).
Proof.
  assert (Hsize : Size (Clear m) = 0).
  { unfold Size, Clear. simpl. rewrite Size_fold.
    induction (shards m) as [| sh l IH]; [done |].
    rewrite !fmap_cons. cbn [sum_list sum_list_with]. unfold id, m_Clear at 1.
    rewrite map_size_empty. simpl. exact IH. }
  split_and!; try done.
  - by rewrite Empty_from_Size, Hsize.
  - unfold Keys, Clear. simpl.
    induction (shards m) as [| sh l IH]; [done |]. exact IH.
  - unfold Clear. simpl. apply length_fmap.
  - unfold Clear, setDirty. simpl. f_equal.
    rewrite <- list_fmap_compose. by apply list_fmap_ext.
  - intros Hwf key. destruct (Clear_spec m Hwf) as (Hwf' & Hflat & _).
    rewrite Get_flat, Hflat by done. unfold m_Get. by rewrite lookup_empty.
Qed.

(** ** Enumerations *)

Lemma fold_left_app_join {A B} (f : A → list B) (l : list A) (acc : list B) :
  fold_left (fun acc x => acc ++ f x) l acc = acc ++ mjoin (f <$> l).
Proof.
  revert acc. induction l as [| x l IH]; intros acc; simpl.
  - by rewrite app_nil_r.
  - by rewrite IH, app_assoc.
Qed.

Lemma Keys_join m : Keys m = mjoin (m_Keys <$> shards m).
Proof. unfold Keys. by rewrite fold_left_app_join. Qed.

Lemma Values_join m : Values m = mjoin (m_Values <$> shards m).
Proof. unfold Values. by rewrite fold_left_app_join. Qed.

Lemma elem_of_m_Keys sh key : key ∈ m_Keys sh ↔ is_Some (sh !! key).
Proof.
  unfold m_Keys. rewrite list_elem_of_fmap. split.
  - intros ([k v] & -> & Hin). apply elem_of_map_to_list in Hin. by eexists.
  - intros [v Hv]. exists (key, v). split; [done |]. by apply elem_of_map_to_list.
Qed.

Lemma elem_of_Keys_shard m key :
  key ∈ Keys m ↔ ∃ sh, sh ∈ shards m ∧ is_Some (sh !! key).
Proof.
  rewrite Keys_join, list_elem_of_join. split.
  - intros (l & Hk & Hl). apply list_elem_of_fmap in Hl as (sh & -> & Hsh).
    exists sh. split; [done |]. by apply elem_of_m_Keys.
  - intros (sh & Hsh & Hk). exists (m_Keys sh). split.
    + by apply elem_of_m_Keys.
    + apply list_elem_of_fmap. by exists sh.
Qed.

Lemma elem_of_shards_flat m key v :
  routed m →
  (∃ sh, sh ∈ shards m ∧ sh !! key = Some v) ↔ flat m !! key = Some v.
Proof.
  intros Hr. unfold flat. rewrite lookup_union_list_Some by by apply routed_disjoint.
  done.
Qed.

Lemma NoDup_join_keys (l : list (gmap K V)) :
  map_disjoint_list l → NoDup (mjoin (m_Keys <$> l)).
Proof.
  induction l as [| sh l IH]; simpl; [intros _; constructor |].
  intros [Hall Hl]%map_disjoint_list_cons.
  apply NoDup_app. split_and!.
  - unfold m_Keys. apply NoDup_fst_map_to_list.
  - intros key Hk%elem_of_m_Keys Hin.
    apply list_elem_of_join in Hin as (ks & Hin & Hks).
    apply list_elem_of_fmap in Hks as (sh' & -> & Hsh').
    apply elem_of_m_Keys in Hin as [v' Hv']. destruct Hk as [v Hv].
    rewrite Forall_forall in Hall. specialize (Hall sh' Hsh').
    by apply (map_disjoint_spec sh' sh) with key v' v in Hall.
  - by apply IH.
Qed.

Lemma length_join_keys (l : list (gmap K V)) :
  length (mjoin (m_Keys <$> l)) = sum_list (size <$> l).
Proof.
  induction l as [| sh l IH]; [done |].
  rewrite !fmap_cons.
  change (mjoin (m_Keys sh :: (m_Keys <$> l))) with (m_Keys sh ++ mjoin (m_Keys <$> l)).
  rewrite length_app, IH. cbn [sum_list sum_list_with]. unfold id, m_Keys.
  by rewrite length_fmap, length_map_to_list.
Qed.

Lemma length_join_values (l : list (gmap K V)) :
  length (mjoin (m_Values <$> l)) = sum_list (size <$> l).
Proof.
  induction l as [| sh l IH]; [done |].
  rewrite !fmap_cons.
  change (mjoin (m_Values sh :: (m_Values <$> l))) with (m_Values sh ++ mjoin (m_Values <$> l)).
  rewrite length_app, IH. cbn [sum_list sum_list_with]. unfold id, m_Values.
  by rewrite length_fmap, length_map_to_list.
Qed.

Lemma Get_found_flat m key v :
  wf m → Get m key = Done (v, true) ↔ flat m !! key = Some v.
Proof.
  intros Hwf. rewrite Get_flat by done. unfold m_Get.
  destruct (flat m !! key) as [v' |]; split; intros Heq; by simplify_eq.
Qed.

(** X4.  [Keys] and [Values] list as many elements as [Size] counts.  On a
    map that satisfies the invariant [Keys] has no duplicate and holds
    exactly the keys [Get] finds, and [Values] holds exactly the values
    [Get] returns for some key. *)
Theorem Keys_Values_spec m :
  Z.of_nat (length (Keys m)) = Size m ∧
  Z.of_nat (length (Values m)) = Size m ∧
  (wf m →
   NoDup (Keys m) ∧
   (∀ key, key ∈ Keys m ↔ ∃ v, Get m key = Done (v, true)) ∧
   (∀ v, v ∈ Values m ↔ ∃ key, Get m key = Done (v, true))).
Proof.
  split_and!.
  - rewrite Keys_join, length_join_keys. unfold Size. rewrite Size_fold. lia.
  - rewrite Values_join, length_join_values. unfold Size. rewrite Size_fold. lia.
  - intros Hwf. pose proof Hwf as [_ _ Hr]. split_and!.
    + rewrite Keys_join. by apply NoDup_join_keys, routed_disjoint.
    + intros key. rewrite elem_of_Keys_shard. split.
      * intros (sh & Hsh & [v Hv]). exists v.
        apply Get_found_flat; [done |]. apply elem_of_shards_flat; eauto.
      * intros [v Hv%Get_found_flat]; [| done].
        apply elem_of_shards_flat in Hv as (sh & Hsh & Hv); [| done].
        exists sh. split; [done | by eexists].
    + intros v. rewrite Values_join, list_elem_of_join. split.
      * intros (vs & Hv & Hvs).
        apply list_elem_of_fmap in Hvs as (sh & -> & Hsh).
        unfold m_Values in Hv. apply list_elem_of_fmap in Hv as ([k v'] & -> & Hkv).
        apply elem_of_map_to_list in Hkv. exists k.
        apply Get_found_flat; [done |]. apply elem_of_shards_flat; eauto.
      * intros [key Hv%Get_found_flat]; [| done].
        apply elem_of_shards_flat in Hv as (sh & Hsh & Hv); [| done].
        exists (m_Values sh). split.
        -- unfold m_Values. apply list_elem_of_fmap. exists (key, v).
           split; [done |]. by apply elem_of_map_to_list.
        -- apply list_elem_of_fmap. by exists sh.
Qed.


(** ** Sequences of calls *)

Lemma runCalls_wf (cs : list (call K V)) : ∀ m,
  wf m →
  ∃ m', runCalls m cs = Done m' ∧ wf m' ∧
        mask m' = mask m ∧ mhasher m' = mhasher m ∧ opts m' = opts m.
Proof.
  induction cs as [| c cs IH]; intros m Hwf.
  - exists m. by split_and!.
  - assert (Hstep : ∃ m1, runCall m c = Done m1 ∧ wf m1 ∧
              mask m1 = mask m ∧ mhasher m1 = mhasher m ∧ opts m1 = opts m).
    { destruct c as [key value | key |]; simpl.
      - destruct (Put_spec m key value Hwf) as (m1 & ? & ? & _ & ? & ? & ? & _).
        exists m1. by split_and!.
      - destruct (Remove_spec m key Hwf) as (m1 & ? & ? & _ & ? & ? & ? & _).
        exists m1. by split_and!.
      - destruct (Clear_spec m Hwf) as (? & _ & ? & ? & ?).
        exists (Clear m). by split_and!. }
    destruct Hstep as (m1 & Hrun1 & Hwf1 & Hmask1 & Hh1 & Ho1).
    destruct (IH m1 Hwf1) as (m' & Hrun & Hwf' & Hmask' & Hh' & Ho').
    exists m'. simpl. rewrite Hrun1. simpl.
    split_and!; try done; congruence.
Qed.

(** X6.  On a map built for a requested shard count of at most 2^31, no
    sequence of [Put], [Remove] and [Clear] calls panics; the map reached
    satisfies the invariant, has the shard count, mask, hasher and options
    it was built with, routes every key to the shard it routed to at
    construction, and answers every [Get]. *)
Theorem runCalls_never_panics
    (json : Encoding K V) (hasher_K : hasher K) (numCPU : Z)
    (options : list (Option K V)) (cs : list (call K V)) :
  let c := createMap json hasher_K numCPU options in
  0 ≤ ShardCount (opts c) ≤ 2 ^ 31 →
  ∃ m', runCalls c cs = Done m' ∧ wf m' ∧
        length (shards m') = length (shards c) ∧
        mask m' = mask c ∧ mhasher m' = mhasher c ∧ opts m' = opts c ∧
        (∀ key, index m' key = index c key) ∧
        (∀ key, ∃ r, Get m' key = Done r).
Proof.
  intros c Hn.
  destruct (createMap_wf json hasher_K numCPU options Hn) as [Hwf _]. fold c in Hwf.
  destruct (runCalls_wf cs c Hwf) as (m' & Hrun & Hwf' & Hmask & Hh & Ho).
  exists m'. split_and!; try done.
  - by apply wf_length.
  - intros key. unfold index. by rewrite Hmask, Hh.
  - intros key. eexists. by apply Get_flat.
Qed.

(** X8.  A map built for a requested shard count of at most 2^31 is empty
    and clean: [Size] is 0, [Empty] holds, [IsDirty] is false, [Keys] is
    empty and [Get] finds no key. *)
Theorem createMap_fresh
    (json : Encoding K V) (hasher_K : hasher K) (numCPU : Z)
    (options : list (Option K V)) :
  let c := createMap json hasher_K numCPU options in
  0 ≤ ShardCount (opts c) ≤ 2 ^ 31 →
  Size c = 0 ∧ Empty c = true ∧ IsDirty c = false ∧ Keys c = [] ∧
  ∀ key, Get c key = Done (inhabitant, false).
Proof.
  intros c Hn.
  destruct (createMap_wf json hasher_K numCPU options Hn) as [Hwf Hflat].
  fold c in Hwf, Hflat.
  assert (Hsize : Size c = 0).
  { rewrite Size_flat, Hflat by apply Hwf. by rewrite map_size_empty. }
  split_and!; try done.
  - by rewrite Empty_from_Size, Hsize.
  - apply length_zero_iff_nil.
    pose proof (Keys_join c) as Hk.
    assert (Hlen : length (Keys c) = sum_list (size <$> shards c))
      by (rewrite Hk; apply length_join_keys).
    unfold Size in Hsize. rewrite Size_fold in Hsize. lia.
  - intros key. rewrite Get_flat, Hflat by done. unfold m_Get.
    by rewrite lookup_empty.
Qed.

(** ** Batch operations *)

Lemma GetMultiple_from_spec keys : ∀ m (acc : gmap K V),
  wf m →
  ∃ result, GetMultiple_from m keys acc = Done result ∧
    ∀ key, result !! key =
      if decide (key ∈ keys)
      then match flat m !! key with Some v => Some v | None => acc !! key end
      else acc !! key.
Proof.
  induction keys as [| key0 keys IH]; intros m acc Hwf.
  - exists acc. split; [done |]. intros key.
    rewrite decide_False; [done |]. apply not_elem_of_nil.
  - simpl. rewrite Get_flat by done. simpl.
    set (acc' := if (m_Get key0 (flat m)).2
                 then <[key0:=(m_Get key0 (flat m)).1]> acc else acc).
    destruct (IH m acc' Hwf) as (result & Hrun & Hres).
    exists result. split; [done |]. intros key. rewrite Hres.
    assert (Hacc' : ∀ k, acc' !! k =
              if decide (k = key0)
              then match flat m !! k with Some v => Some v | None => acc !! k end
              else acc !! k).
    { intros k. unfold acc', m_Get. destruct (decide (k = key0)) as [-> | Hne].
      - destruct (flat m !! key0); simpl; [by rewrite lookup_insert_eq | done].
      - destruct (flat m !! key0); simpl; [by rewrite lookup_insert_ne | done]. }
    rewrite Hacc'.
    destruct (decide (key = key0)) as [-> | Hne].
    + rewrite (decide_True (P := key0 ∈ key0 :: keys)) by apply list_elem_of_here.
      destruct (decide (key0 ∈ keys)); by destruct (flat m !! key0).
    + destruct (decide (key ∈ keys)) as [Hin | Hnin].
      * rewrite decide_True; [done |]. by apply list_elem_of_further.
      * rewrite decide_False; [done |]. by intros [? | ?]%elem_of_cons.
Qed.

(** X9.  [GetMultiple] on a map that satisfies the invariant returns a map
    that binds a key to a value exactly when the key is among those asked
    for and [Get] finds it with that value; keys that are absent from the
    map are left out. *)
Theorem GetMultiple_spec m keys :
  wf m →
  ∃ result, GetMultiple m keys = Done result ∧
    ∀ key v, result !! key = Some v ↔ key ∈ keys ∧ Get m key = Done (v, true).
Proof.
  intros Hwf.
  destruct (GetMultiple_from_spec keys m ∅ Hwf) as (result & Hrun & Hres).
  exists result. split; [done |]. intros key v.
  rewrite Hres, Get_found_flat, lookup_empty by done.
  destruct (decide (key ∈ keys)) as [Hin | Hnin].
  - destruct (flat m !! key) as [v' |]; split.
    + by intros [= ->].
    + by intros [_ [= ->]].
    + done.
    + by intros [_ ?].
  - split; [done |]. by intros [? _].
Qed.

Lemma Remove_absent m key :
  wf m → flat m !! key = None → Remove m key = Done m.
Proof.
  intros Hwf Hnone. destruct (wf_getShard m key Hwf) as [sh Hsh].
  unfold Remove. rewrite (getShard_index _ _ _ Hsh). simpl.
  rewrite <- (m_Get_lookup key (flat m) sh) by (apply flat_lookup; [apply Hwf | done]).
  unfold m_Get. by rewrite Hnone.
Qed.

Lemma RemoveMultiple_flat keys : ∀ m,
  wf m →
  ∃ m', RemoveMultiple m keys = Done m' ∧ wf m' ∧
    (∀ key, flat m' !! key = if decide (key ∈ keys) then None else flat m !! key) ∧
    (dirty m = true → dirty m' = true).
Proof.
  induction keys as [| key0 keys IH]; intros m Hwf.
  - exists m. by split_and!.
  - destruct (Remove_spec m key0 Hwf) as (m1 & HRem & Hwf1 & Hflat1 & _ & _ & _ & Hd1).
    destruct (IH m1 Hwf1) as (m' & Hrun & Hwf' & Hflat' & Hd').
    exists m'. simpl. rewrite HRem. simpl. split_and!; try done.
    + intros key. rewrite Hflat', Hflat1.
      destruct (decide (key = key0)) as [-> | Hne].
      * rewrite (decide_True (P := key0 ∈ key0 :: keys)) by apply list_elem_of_here.
        destruct (decide (key0 ∈ keys)); [done | by rewrite lookup_delete_eq].
      * rewrite lookup_delete_ne by done.
        destruct (decide (key ∈ keys)) as [Hin | Hnin].
        -- rewrite decide_True; [done |]. by apply list_elem_of_further.
        -- rewrite decide_False; [done |]. by intros [? | ?]%elem_of_cons.
    + intros Hd. apply Hd'. by rewrite Hd1, Hd.
Qed.

(** X10.  [RemoveMultiple] on a map that satisfies the invariant returns;
    afterwards [Get] finds none of the keys listed and answers for every
    other key as before.  When none of the keys was in the map the map is
    returned as it was, dirty flag included; when one of them was, the map
    is dirty. *)
Theorem RemoveMultiple_spec m keys :
  wf m →
  ∃ m', RemoveMultiple m keys = Done m' ∧ wf m' ∧
    (∀ key, key ∈ keys → Get m' key = Done (inhabitant, false)) ∧
    (∀ key, key ∉ keys → Get m' key = Get m key) ∧
    ((∀ key, key ∈ keys → Get m key = Done (inhabitant, false)) → m' = m) ∧
    ((∃ key v, key ∈ keys ∧ Get m key = Done (v, true)) → IsDirty m' = true).
Proof.
  intros Hwf.
  destruct (RemoveMultiple_flat keys m Hwf) as (m' & Hrun & Hwf' & Hflat & _).
  exists m'. split_and!; try done.
  - intros key Hin. rewrite Get_flat, (m_Get_lookup key _ ∅) by
      (done || by rewrite Hflat, decide_True, lookup_empty).
    unfold m_Get. by rewrite lookup_empty.
  - intros key Hnin. rewrite !Get_flat by done.
    apply f_equal, m_Get_lookup. by rewrite Hflat, decide_False.
  - intros Habsent. clear Hflat Hwf'. revert m Hwf m' Hrun Habsent.
    induction keys as [| key0 keys IH]; intros m Hwf m' Hrun Habsent.
    + by injection Hrun as <-.
    + simpl in Hrun. rewrite Remove_absent in Hrun; [| done |].
      * simpl in Hrun. apply (IH m Hwf m' Hrun).
        intros key Hin. apply Habsent. by apply list_elem_of_further.
      * specialize (Habsent key0 (list_elem_of_here _ _)).
        rewrite Get_flat in Habsent by done. injection Habsent as Hg.
        unfold m_Get in Hg. by destruct (flat m !! key0).
  - intros (key & v & Hin & HGet). clear Hflat Hwf'.
    revert m Hwf m' Hrun HGet.
    induction keys as [| key0 keys IH]; intros m Hwf m' Hrun HGet.
    + by apply elem_of_nil in Hin.
    + simpl in Hrun.
      destruct (Remove_spec m key0 Hwf) as (m1 & HRem & Hwf1 & Hflat1 & _ & _ & _ & Hd1).
      rewrite HRem in Hrun. simpl in Hrun.
      destruct (RemoveMultiple_flat keys m1 Hwf1) as (m2 & Hrun2 & _ & _ & Hmono).
      rewrite Hrun2 in Hrun. injection Hrun as <-.
      destruct (decide (key = key0)) as [-> | Hne].
      * apply Hmono. rewrite Hd1. rewrite Get_flat in HGet by done.
        injection HGet as HGet. rewrite HGet. apply orb_true_r.
      * apply elem_of_cons in Hin as [? | Hin]; [done |].
        apply (IH Hin m1 Hwf1 m2 Hrun2).
        apply Get_found_flat; [done |]. rewrite Hflat1, lookup_delete_ne by done.
        by apply Get_found_flat.
Qed.

Lemma foldl_insertEntry_union (entries : list (K * V)) : ∀ acc : gmap K V,
  foldl insertEntry acc entries = list_to_map (reverse entries) ∪ acc.
Proof.
  induction entries as [| [k v] entries IH]; intros acc; simpl.
  - change (reverse []) with (@nil (K * V)). simpl.
    by rewrite (left_id_L ∅ (∪)).
  - rewrite IH, reverse_cons, list_to_map_app. simpl.
    unfold insertEntry. simpl.
    rewrite insert_empty, <- (assoc_L (∪)).
    by rewrite <- insert_union_singleton_l.
Qed.

Lemma PutAll_flat entries : ∀ m,
  wf m →
  ∃ m', PutAll m entries = Done m' ∧ wf m' ∧
        flat m' = foldl insertEntry (flat m) entries ∧
        (entries ≠ [] → dirty m' = true).
Proof.
  induction entries as [| entry entries IH]; intros m Hwf.
  - exists m. by split_and!.
  - destruct (Put_spec m entry.1 entry.2 Hwf)
      as (m1 & HPut & Hwf1 & Hflat1 & _ & _ & _ & Hd1).
    destruct (IH m1 Hwf1) as (m' & Hrun & Hwf' & Hflat' & Hd').
    exists m'. simpl. rewrite HPut. simpl. split_and!; try done.
    + by rewrite Hflat', Hflat1.
    + intros _. destruct entries as [| e entries]; [| by apply Hd'].
      by injection Hrun as <-.
Qed.

(** X11.  [PutAll] on a map that satisfies the invariant returns, whatever
    the order in which the loop visits the entries of its argument:
    afterwards [Get] returns the argument's value for a key of the
    argument and answers as before for any other key.  An empty argument
    leaves the map as it was; any other argument leaves it dirty. *)
Theorem PutAll_spec m (data : gmap K V) (entries : list (K * V)) :
  wf m →
  entries ≡ₚ map_to_list data →
  ∃ m', PutAll m entries = Done m' ∧ wf m' ∧
    (∀ key, Get m' key =
            match data !! key with
            | Some v => Done (v, true)
            | None => Get m key
            end) ∧
    (data = ∅ → m' = m) ∧
    (data ≠ ∅ → IsDirty m' = true).
Proof.
  intros Hwf Hperm.
  destruct (PutAll_flat entries m Hwf) as (m' & Hrun & Hwf' & Hflat & Hd).
  assert (Hdata : list_to_map (reverse entries) = data).
  { rewrite <- (list_to_map_to_list data). apply list_to_map_proper.
    - rewrite reverse_Permutation, Hperm. apply NoDup_fst_map_to_list.
    - by rewrite reverse_Permutation. }
  rewrite foldl_insertEntry_union, Hdata in Hflat.
  exists m'. split_and!; try done.
  - intros key. rewrite !Get_flat, Hflat by done.
    unfold m_Get. rewrite lookup_union.
    destruct (data !! key) as [v |]; simpl.
    + by destruct (flat m !! key).
    + by rewrite (left_id None (∪)).
  - intros ->. rewrite map_to_list_empty in Hperm.
    apply Permutation_nil_r in Hperm as ->. by injection Hrun as <-.
  - intros Hne. apply Hd. intros ->. apply Hne.
    apply Permutation_nil_l in Hperm. by apply map_to_list_empty_iff.
Qed.

(** ** Loading *)

Lemma foldl_insertItem_notin items : ∀ (acc : gmap K V) key,
  key ∉ Key <$> items → foldl insertItem acc items !! key = acc !! key.
Proof.
  induction items as [| t items IH]; intros acc key Hnin; simpl; [done |].
  rewrite fmap_cons in Hnin. apply not_elem_of_cons in Hnin as [Hne Hnin].
  rewrite IH by done. unfold insertItem. by rewrite lookup_insert_ne.
Qed.

Lemma foldl_insertItem_size items : ∀ acc : gmap K V,
  NoDup (Key <$> items) →
  (∀ key, key ∈ Key <$> items → acc !! key = None) →
  size (foldl insertItem acc items) = (size acc + length items)%nat.
Proof.
  induction items as [| t items IH]; intros acc Hnd Hfresh; simpl; [lia |].
  rewrite fmap_cons in Hnd. apply NoDup_cons in Hnd as [Hnin Hnd].
  rewrite IH; [| done |].
  - unfold insertItem. rewrite map_size_insert_None; [lia |].
    apply Hfresh. rewrite fmap_cons. apply list_elem_of_here.
  - intros key Hin. unfold insertItem. rewrite lookup_insert_ne.
    + apply Hfresh. rewrite fmap_cons. by apply list_elem_of_further.
    + intros Heq. apply Hnin. by rewrite Heq.
Qed.

Lemma UnmarshalWith_ok m (data : bytes) (serializer : SerializerFunc K V) d :
  wf m → Unmarshal serializer data = Done (Ok d) →
  ∃ m', UnmarshalWith m data serializer = Done (None, m') ∧ wf m' ∧
        flat m' = foldl insertItem ∅ (Items d) ∧ dirty m' = false ∧
        mask m' = mask m ∧ mhasher m' = mhasher m ∧ opts m' = opts m.
Proof.
  intros Hwf HU.
  destruct (Clear_spec m Hwf) as (Hwfc & Hflatc & Hmc & Hhc & Hoc).
  destruct (putItems_spec (Items d) (Clear m) Hwfc)
    as (m2 & Hrun & Hwf2 & Hflat2 & Hm2 & Hh2 & Ho2).
  exists (setDirty m2 false). unfold UnmarshalWith. rewrite HU. simpl.
  rewrite Hrun. simpl. split_and!; try done; try congruence.
  - by destruct Hwf2.
  - change (flat (setDirty m2 false)) with (flat m2). by rewrite Hflat2, Hflatc.
Qed.

(** X12.  [UnmarshalWith] on a map that satisfies the invariant, given
    bytes the codec decodes, replaces the content of the map by the decoded
    entries and leaves the map clean: for a key that occurs several times
    the last entry wins, a key that does not occur is not found whatever
    the map held before, and when the keys are pairwise distinct [Size] is
    the number of entries. *)
Theorem UnmarshalWith_replaces m (data : bytes) (serializer : SerializerFunc K V) d :
  wf m → Unmarshal serializer data = Done (Ok d) →
  ∃ m', UnmarshalWith m data serializer = Done (None, m') ∧ wf m' ∧
    IsDirty m' = false ∧
    (∀ before t after, Items d = before ++ t :: after →
       Key t ∉ Key <$> after → Get m' (Key t) = Done (Value t, true)) ∧
    (∀ key, key ∉ Key <$> Items d → Get m' key = Done (inhabitant, false)) ∧
    (NoDup (Key <$> Items d) → Size m' = Z.of_nat (length (Items d))).
Proof.
  intros Hwf HU.
  destruct (UnmarshalWith_ok m data serializer d Hwf HU)
    as (m' & Hrun & Hwf' & Hflat & Hd & _).
  exists m'. split_and!; try done.
  - intros before t after Hitems Hlast.
    apply Get_found_flat; [done |].
    rewrite Hflat, Hitems, foldl_app. simpl.
    rewrite foldl_insertItem_notin by done.
    unfold insertItem at 1. by rewrite lookup_insert_eq.
  - intros key Hnin. rewrite Get_flat, Hflat by done. unfold m_Get.
    by rewrite foldl_insertItem_notin, lookup_empty.
  - intros Hnd. rewrite Size_flat, Hflat by apply Hwf'.
    rewrite foldl_insertItem_size, map_size_empty; [done | done |].
    intros key _. apply lookup_empty.
Qed.

Lemma roundtrip_wf m1 m2 (serializer : SerializerFunc K V) (data : bytes) :
  wf m1 → wf m2 → codec_inverse serializer →
  MarshalWith m1 serializer = Done (Ok data) →
  ∃ m2', UnmarshalWith m2 data serializer = Done (None, m2') ∧ wf m2' ∧
         flat m2' = flat m1 ∧ dirty m2' = false.
Proof.
  intros Hwf1 Hwf2 Hinv Hmarshal.
  unfold MarshalWith in Hmarshal. apply Hinv in Hmarshal.
  destruct (UnmarshalWith_ok m2 data serializer _ Hwf2 Hmarshal)
    as (m2' & Hrun & Hwf' & Hflat & Hd & _).
  exists m2'. split_and!; try done.
  simpl in Hflat. by rewrite Hflat, reload_flat by apply Hwf1.
Qed.

(** X13.  [MarshalJSON] followed by [UnmarshalJSON], on two maps that
    satisfy the invariant and are configured with no codec or with the
    JSON codec, whose decoder inverts its encoder: the bytes load, the
    loaded map is clean, has the [Size] of the original and answers every
    [Get] as the original does. *)
Theorem MarshalJSON_UnmarshalJSON_roundtrip
    (json : Encoding K V) m1 m2 (data : bytes) :
  wf m1 → wf m2 →
  (Serializer (opts m1) = None ∨ Serializer (opts m1) = Some (JsonSerializer json)) →
  (Serializer (opts m2) = None ∨ Serializer (opts m2) = Some (JsonSerializer json)) →
  (∀ d bs, encode json d = Ok bs → decode json bs = Ok d) →
  MarshalJSON json m1 = Done (Ok data) →
  ∃ m2', UnmarshalJSON json m2 data = Done (None, m2') ∧
         IsDirty m2' = false ∧ Size m2' = Size m1 ∧
         ∀ key, Get m2' key = Get m1 key.
Proof.
  intros Hwf1 Hwf2 Hs1 Hs2 Hinv Hmarshal.
  assert (Hget : ∀ m, Serializer (opts m) = None
                      ∨ Serializer (opts m) = Some (JsonSerializer json) →
                      getJSONSerializer json m = JsonSerializer json).
  { intros m [Hs | Hs]; unfold getJSONSerializer; by rewrite Hs. }
  unfold MarshalJSON in Hmarshal. unfold UnmarshalJSON.
  rewrite Hget in Hmarshal by done. rewrite Hget by done.
  assert (Hcodec : codec_inverse (JsonSerializer json)).
  { intros d bs. unfold Marshal, Unmarshal. simpl. intros [= Henc].
    by rewrite (Hinv _ _ Henc). }
  destruct (roundtrip_wf m1 m2 _ data Hwf1 Hwf2 Hcodec Hmarshal)
    as (m2' & Hrun & Hwf' & Hflat & Hd).
  exists m2'. split_and!; try done.
  - rewrite !Size_flat by (apply Hwf' || apply Hwf1). by rewrite Hflat.
  - intros key. rewrite !Get_flat by done. by rewrite Hflat.
Qed.

Lemma Clear_spec_sizes m :
  Size (setDirty (Clear m) false) = 0 ∧ Empty (setDirty (Clear m) false) = true ∧
  Keys (setDirty (Clear m) false) = [].
Proof.
  assert (Hsize : Size (setDirty (Clear m) false) = 0).
  { unfold Size, Clear. simpl. rewrite Size_fold.
    induction (shards m) as [| sh l IH]; [done |].
    rewrite !fmap_cons. cbn [sum_list sum_list_with]. unfold id, m_Clear at 1.
    rewrite map_size_empty. simpl. exact IH. }
  split_and!; try done.
  - by rewrite Empty_from_Size, Hsize.
  - unfold Keys, Clear. simpl.
    induction (shards m) as [| sh l IH]; [done |]. exact IH.
Qed.

End more_cmap_props.

(** ** Rounding, over the whole of [uint32] *)

(** X7.  For a [uint32] argument of at most 2^31, [roundUpToPowerOf2]
    returns the least power of two that is at least the argument (1 for
    the argument 0), and returns a power of two unchanged; for a larger
    argument it returns 0. *)
Theorem roundUpToPowerOf2_uint32 n :
  0 ≤ n < 2 ^ 32 →
  (n ≤ 2 ^ 31 → leastPowerOf2 (Z.max 1 n) (roundUpToPowerOf2 n)) ∧
  (∀ e, 0 ≤ e ≤ 31 → n = 2 ^ e → roundUpToPowerOf2 n = n) ∧
  (2 ^ 31 < n → roundUpToPowerOf2 n = 0).
Proof.
  intros Hn. split_and!.
  - intros Hle. destruct (Z.eq_dec n 0) as [-> | Hne].
    + change (roundUpToPowerOf2 0) with (roundUpToPowerOf2 1).
      apply roundUpToPowerOf2_least. lia.
    + rewrite Z.max_r by lia. apply roundUpToPowerOf2_least. lia.
  - intros e He ->.
    assert (2 ^ e ≤ 2 ^ 31) by (apply Z.pow_le_mono_r; lia).
    assert (0 < 2 ^ e) by (apply Z.pow_pos_nonneg; lia).
    rewrite roundUpToPowerOf2_log2_up by lia.
    by rewrite Z.log2_up_pow2 by lia.
  - intros Hgt. apply roundUpToPowerOf2_overflow. lia.
Qed.

(** ** Persistence: what a call can change *)

Section more_file_props.
Context {K V : Type} `{Countable K} `{Inhabited V}.
Context {W : Type} (os : OS W).
Implicit Types (m : Map K V) (w : W) (filename : string).

Lemma Put_frame m key value m' :
  Put m key value = Done m' →
  mask m' = mask m ∧ mhasher m' = mhasher m ∧ opts m' = opts m.
Proof.
  unfold Put. destruct (getShard m key) as [[i sh] |]; [| done].
  by intros [= <-].
Qed.

Lemma putItems_frame items : ∀ m m',
  putItems m items = Done m' →
  mask m' = mask m ∧ mhasher m' = mhasher m ∧ opts m' = opts m.
Proof.
  induction items as [| t items IH]; intros m m' Hrun; simpl in Hrun.
  - by injection Hrun as <-.
  - destruct (Put m (Key t) (Value t)) as [m1 |] eqn:HPut; [| done].
    simpl in Hrun. apply Put_frame in HPut as (? & ? & ?).
    apply IH in Hrun as (? & ? & ?). split_and!; congruence.
Qed.

Lemma UnmarshalWith_result m (data : bytes) (serializer : SerializerFunc K V) e m' :
  UnmarshalWith m data serializer = Done (e, m') →
  (∀ err, e = Some err → m' = m) ∧
  (e = None → dirty m' = false ∧ mask m' = mask m ∧
              mhasher m' = mhasher m ∧ opts m' = opts m).
Proof.
  unfold UnmarshalWith.
  destruct (Unmarshal serializer data) as [[d | err] |]; simpl; [| | done].
  - destruct (putItems (Clear m) (Items d)) as [m2 |] eqn:Hrun; [| done].
    simpl. intros [= <- <-]. split; [done |]. intros _.
    apply putItems_frame in Hrun as (? & ? & ?). by split_and!.
  - intros [= <- <-]. by split.
Qed.

(** X14.  Whatever [SaveToFile] returns, the map it leaves has the shards,
    mask, hasher and options of the map it was given.  When it returns an
    error the map is exactly the one given, dirty flag included; when it
    returns nil the map is clean. *)
Theorem SaveToFile_touches_only_dirty m filename w e m' w' :
  SaveToFile os m filename w = Done (e, m', w') →
  shards m' = shards m ∧ mask m' = mask m ∧ mhasher m' = mhasher m ∧
  opts m' = opts m ∧
  (∀ err, e = Some err → m' = m) ∧
  (e = None → IsDirty m' = false).
Proof.
  unfold SaveToFile.
  destruct (String.eqb filename ""); [by intros [= <- <- <-] |].
  destruct (ensureDir os filename w) as [[err |] w1]; [by intros [= <- <- <-] |].
  destruct (Serializer (opts m)) as [s |]; [| by intros [= <- <- <-]].
  destruct (MarshalFunc s) as [f |]; [| by intros [= <- <- <-]].
  destruct ((Size m >? 0) && negb (dirty m)) eqn:Hskip.
  { intros [= <- <- <-]. split_and!; try done. intros _.
    by apply andb_true_iff in Hskip as [_ Hd%negb_true_iff]. }
  destruct (MarshalWith m s) as [[data | err] |]; simpl;
    [| by intros [= <- <- <-] | done].
  destruct (WriteFile os (filename ++ ".tmp") data w1) as [[err |] w2];
    [by intros [= <- <- <-] |].
  destruct (Rename os (filename ++ ".tmp") filename w2) as [[err |] w3];
    by intros [= <- <- <-].
Qed.

(** X15.  [LoadFromFile] is all or nothing on the map: when it returns an
    error, of any kind, the map is exactly the one given; when it returns
    nil the map is clean and keeps its mask, hasher and options. *)
Theorem LoadFromFile_all_or_nothing m filename w e m' w' :
  LoadFromFile os m filename w = Done (e, m', w') →
  (∀ err, e = Some err → m' = m) ∧
  (e = None → IsDirty m' = false ∧ mask m' = mask m ∧
              mhasher m' = mhasher m ∧ opts m' = opts m).
Proof.
  unfold LoadFromFile.
  destruct (String.eqb filename ""); [by intros [= <- <- <-] |].
  destruct (Serializer (opts m)) as [s |]; [| by intros [= <- <- <-]].
  destruct (UnmarshalFunc s) as [f |]; [| by intros [= <- <- <-]].
  destruct (StatNotExist os filename w) as [[|] w1]; [by intros [= <- <- <-] |].
  destruct (ReadFile os filename w1) as [[data | err] w2];
    [| by intros [= <- <- <-]].
  destruct (length data =? 0)%nat; [by intros [= <- <- <-] |].
  destruct (UnmarshalWith m data s) as [[e1 m1] |] eqn:HU; [| done]. simpl.
  apply UnmarshalWith_result in HU as [Herr Hok].
  destruct e1 as [err |]; intros [= <- <- <-].
  - split; [| done]. intros ? _. by apply (Herr err).
  - split; [done |]. intros _. by destruct (Hok eq_refl) as (? & ? & ? & ?).
Qed.

(** X16.  [SaveToFile] of a clean map that holds at least one entry runs
    the directory step and nothing else: it marshals nothing and writes
    nothing, and returns nil even when the target was never written. *)
Theorem SaveToFile_clean_nonempty_skips
    m filename w (serializer : SerializerFunc K V) f :
  filename ≠ ""%string →
  Serializer (opts m) = Some serializer → MarshalFunc serializer = Some f →
  0 < Size m → IsDirty m = false →
  SaveToFile os m filename w
  = match ensureDir os filename w with
    | (Some err, w') => Done (Some err, m, w')
    | (None, w') => Done (None, m, w')
    end.
Proof.
  intros Hne Hs Hf Hsize Hd. unfold SaveToFile, IsDirty in *.
  rewrite eqb_empty_false by done.
  destruct (ensureDir os filename w) as [[err |] w']; [done |].
  rewrite Hs, Hf, Hd.
  by replace (Size m >? 0) with true by (symmetry; apply Z.gtb_lt; lia).
Qed.

(** X17.  [LoadFromFile] of a file that exists and has length zero returns
    nil and an empty, clean map, without consulting the codec: this holds
    for codecs whose [Unmarshal] refuses empty input too. *)
Theorem LoadFromFile_empty_file
    m filename w w1 w2 (serializer : SerializerFunc K V) f :
  filename ≠ ""%string →
  Serializer (opts m) = Some serializer → UnmarshalFunc serializer = Some f →
  StatNotExist os filename w = (false, w1) →
  ReadFile os filename w1 = (Ok [], w2) →
  ∃ m', LoadFromFile os m filename w = Done (None, m', w2) ∧
        Size m' = 0 ∧ Empty m' = true ∧ Keys m' = [] ∧ IsDirty m' = false.
Proof.
  intros Hne Hs Hf Hstat Hread.
  exists (setDirty (Clear m) false). split.
  - unfold LoadFromFile. by rewrite eqb_empty_false, Hs, Hf, Hstat, Hread.
  - destruct (Clear_spec_sizes m) as (Hsize & Hempty & Hkeys).
    by split_and!.
Qed.

(** X18.  [LoadFromFile] of a path that [os.Stat] reports as not existing
    returns an error that names the file, reads nothing and leaves the map
    as it was. *)
Theorem LoadFromFile_missing_file
    m filename w w1 (serializer : SerializerFunc K V) f :
  filename ≠ ""%string →
  Serializer (opts m) = Some serializer → UnmarshalFunc serializer = Some f →
  StatNotExist os filename w = (true, w1) →
  LoadFromFile os m filename w
  = Done (Some (errorString ("file " ++ filename ++ " does not exist")), m, w1).
Proof.
  intros Hne Hs Hf Hstat. unfold LoadFromFile.
  by rewrite eqb_empty_false, Hs, Hf, Hstat.
Qed.

(** X19.  Loading what was marshalled.  When the file read by
    [LoadFromFile] holds the bytes [MarshalWith] produced for a map, with
    the codec the loading map is configured with and whose [Unmarshal]
    inverts its [Marshal], the load returns nil and a clean map that has
    the [Size] of the marshalled map and answers every [Get] as it does.
    Both maps satisfy the invariant; bytes of length zero stand for the
    empty map only. *)
Theorem LoadFromFile_after_MarshalWith
    m1 m2 filename w w1 w2 (serializer : SerializerFunc K V) (data : bytes) :
  wf m1 → wf m2 → codec_inverse serializer →
  filename ≠ ""%string →
  Serializer (opts m2) = Some serializer →
  MarshalWith m1 serializer = Done (Ok data) →
  (data = [] → Size m1 = 0) →
  StatNotExist os filename w = (false, w1) →
  ReadFile os filename w1 = (Ok data, w2) →
  ∃ m2', LoadFromFile os m2 filename w = Done (None, m2', w2) ∧
         IsDirty m2' = false ∧ Size m2' = Size m1 ∧
         ∀ key, Get m2' key = Get m1 key.
Proof.
  intros Hwf1 Hwf2 Hinv Hne Hs Hmarshal Hempty Hstat Hread.
  assert (Hf : ∃ f, UnmarshalFunc serializer = Some f).
  { unfold MarshalWith in Hmarshal. apply Hinv in Hmarshal.
    unfold Unmarshal in Hmarshal.
    destruct (UnmarshalFunc serializer) as [f |]; [by exists f | done]. }
  destruct Hf as [f Hf].
  unfold LoadFromFile. rewrite eqb_empty_false, Hs, Hf, Hstat, Hread by done.
  destruct data as [| b data].
  - simpl. exists (setDirty (Clear m2) false). split; [done |].
    destruct (Clear_spec m2 Hwf2) as (Hwfc & Hflatc & _).
    assert (Hwf' : wf (setDirty (Clear m2) false)) by (by destruct Hwfc).
    assert (Hflat1 : flat m1 = ∅).
    { apply map_size_empty_inv. specialize (Hempty eq_refl).
      rewrite Size_flat in Hempty by apply Hwf1. lia. }
    split_and!; try done.
    + rewrite Hempty by done. by destruct (Clear_spec_sizes m2) as (? & _).
    + intros key. rewrite !Get_flat by done. apply f_equal, m_Get_lookup.
      change (flat (setDirty (Clear m2) false)) with (flat (Clear m2)).
      by rewrite Hflatc, Hflat1.
  - destruct (roundtrip_wf m1 m2 serializer (b :: data) Hwf1 Hwf2 Hinv Hmarshal)
      as (m2' & Hrun & Hwf' & Hflat & Hd).
    simpl length. cbn [Nat.eqb]. rewrite Hrun. simpl.
    exists (setDirty m2' false).
    assert (Hwf'' : wf (setDirty m2' false)) by (by destruct Hwf').
    split_and!; try done.
    + rewrite !Size_flat by (apply Hwf'' || apply Hwf1).
      change (flat (setDirty m2' false)) with (flat m2'). by rewrite Hflat.
    + intros key. rewrite !Get_flat by done. apply f_equal, m_Get_lookup.
      change (flat (setDirty m2' false)) with (flat m2'). by rewrite Hflat.
Qed.

End more_file_props.

(** ** The 32-bit mixer loses nothing *)

Section mixer.

Lemma uint32_high_bits x i : 0 ≤ x < 2 ^ 32 → 32 ≤ i → Z.testbit x i = false.
Proof.
  intros Hx Hi. destruct (Z.eq_dec x 0) as [-> | Hne]; [apply Z.bits_0 |].
  apply Z.bits_above_log2; [lia |].
  assert (Z.log2 x < 32) by (apply Z.log2_lt_pow2; lia). lia.
Qed.

Lemma uint32_of_bits y :
  0 ≤ y → (∀ i, 32 ≤ i → Z.testbit y i = false) → y < 2 ^ 32.
Proof.
  intros Hy Hhigh.
  assert (Hmod : y = y mod 2 ^ 32).
  { apply Z.bits_inj'. intros i Hi.
    destruct (Z_lt_le_dec i 32).
    - by rewrite Z.mod_pow2_bits_low.
    - rewrite Z.mod_pow2_bits_high by lia. by apply Hhigh. }
  rewrite Hmod. apply Z.mod_pos_bound. lia.
Qed.

Lemma xorshift16_range x :
  0 ≤ x < 2 ^ 32 → 0 ≤ Z.lxor (Z.shiftr x 16) x < 2 ^ 32.
Proof.
  intros Hx.
  assert (Hnn : 0 ≤ Z.lxor (Z.shiftr x 16) x).
  { apply Z.lxor_nonneg. split; intros _; [lia | apply Z.shiftr_nonneg; lia]. }
  split; [done |]. apply uint32_of_bits; [done |]. intros i Hi.
  rewrite Z.lxor_spec, Z.shiftr_spec by lia.
  by rewrite !uint32_high_bits by (done || lia).
Qed.

Lemma xorshift16_involutive x :
  0 ≤ x < 2 ^ 32 →
  Z.lxor (Z.shiftr (Z.lxor (Z.shiftr x 16) x) 16) (Z.lxor (Z.shiftr x 16) x) = x.
Proof.
  intros Hx. apply Z.bits_inj'. intros i Hi.
  rewrite !Z.lxor_spec, !Z.shiftr_spec, !Z.lxor_spec, !Z.shiftr_spec by lia.
  replace (i + 16 + 16) with (i + 32) by lia.
  rewrite (uint32_high_bits x (i + 32)) by (done || lia).
  by destruct (Z.testbit x (i + 16)), (Z.testbit x i).
Qed.

Lemma mul_mixer_injective a b :
  wrap32 (a * 0x45d9f3b) = wrap32 (b * 0x45d9f3b) → wrap32 a = wrap32 b.
Proof.
  intros Heq.
  assert (Hinv : ∀ x, wrap32 (wrap32 (x * 0x45d9f3b) * 0x119de1f3) = wrap32 x).
  { intros x. unfold wrap32. rewrite Z.mul_mod_idemp_l by lia.
    rewrite <- Z.mul_assoc, <- Z.mul_mod_idemp_r by lia.
    change ((0x45d9f3b * 0x119de1f3) mod 2 ^ 32) with 1. by rewrite Z.mul_1_r. }
  by rewrite <- (Hinv a), <- (Hinv b), Heq.
Qed.

Lemma mix_step_injective a b :
  0 ≤ a < 2 ^ 32 → 0 ≤ b < 2 ^ 32 →
  wrap32 (Z.lxor (Z.shiftr a 16) a * 0x45d9f3b)
  = wrap32 (Z.lxor (Z.shiftr b 16) b * 0x45d9f3b) →
  a = b.
Proof.
  intros Ha Hb Heq%mul_mixer_injective.
  rewrite !wrap32_small in Heq by by apply xorshift16_range.
  by rewrite <- (xorshift16_involutive a), <- (xorshift16_involutive b), Heq.
Qed.

(** X20.  [uint32Hash] is injective on 32-bit keys: two keys with the same
    hash have the same 32-bit pattern, so distinct keys of an integer type
    of at most 32 bits never collide before the mask is applied. *)
Theorem uint32Hash_injective a b :
  uint32Hash a = uint32Hash b → wrap32 a = wrap32 b.
Proof.
  unfold uint32Hash. cbv zeta. intros Heq.
  pose proof (wrap32_range a) as Ha. pose proof (wrap32_range b) as Hb.
  set (a1 := wrap32 (Z.lxor (Z.shiftr (wrap32 a) 16) (wrap32 a) * 0x45d9f3b)) in *.
  set (b1 := wrap32 (Z.lxor (Z.shiftr (wrap32 b) 16) (wrap32 b) * 0x45d9f3b)) in *.
  set (a2 := wrap32 (Z.lxor (Z.shiftr a1 16) a1 * 0x45d9f3b)) in *.
  set (b2 := wrap32 (Z.lxor (Z.shiftr b1 16) b1 * 0x45d9f3b)) in *.
  assert (H2 : a2 = b2).
  { rewrite <- (xorshift16_involutive a2), <- (xorshift16_involutive b2)
      by apply wrap32_range.
    by rewrite Heq. }
  assert (H1 : a1 = b1) by (apply mix_step_injective; (apply wrap32_range || done)).
  by apply mix_step_injective.
Qed.

End mixer.

(** ** Witnesses of the further properties *)

Lemma Example_new_wf options :
  0 ≤ ShardCount (opts (Example.new options)) ≤ 2 ^ 31 → wf (Example.new options).
Proof. intros Hn. by apply createMap_wf. Qed.

Lemma Example_put_wf m key value : wf m → wf (Example.put m key value).
Proof.
  intros Hwf. destruct (Put_spec m key value Hwf) as (m' & HPut & Hwf' & _).
  unfold Example.put. by rewrite HPut.
Qed.

Lemma emptyMap_wf : wf Example.emptyMap.
Proof. apply Example_new_wf. vm_compute. split; discriminate. Qed.

Lemma oneEntryMap_wf : wf Example.oneEntryMap.
Proof. apply Example_put_wf, emptyMap_wf. Qed.

Lemma Put_then_Get_witness :
  ∃ m', Put Example.oneEntryMap 2 20 = Done m' ∧ wf m' ∧
        IsDirty m' = true ∧
        Get m' 2 = Done (20, true) ∧
        (∀ key', key' ≠ 2 → Get m' key' = Get Example.oneEntryMap key') ∧
        (∀ r, Get Example.oneEntryMap 2 = Done r →
              Size m' = if r.2 then Size Example.oneEntryMap
                        else Size Example.oneEntryMap + 1) ∧
        Empty m' = false.
Proof. apply (Put_then_Get Example.oneEntryMap 2 20), oneEntryMap_wf. Defined.

Lemma Remove_then_Get_witness :
  ∃ m' r, Get Example.oneEntryMap 1 = Done r ∧
        Remove Example.oneEntryMap 1 = Done m' ∧ wf m' ∧
        Get m' 1 = Done (inhabitant, false) ∧
        (∀ key', key' ≠ 1 → Get m' key' = Get Example.oneEntryMap key') ∧
        Size m' = (if r.2 then Size Example.oneEntryMap - 1
                   else Size Example.oneEntryMap) ∧
        IsDirty m' = IsDirty Example.oneEntryMap || r.2.
Proof. apply (Remove_then_Get Example.oneEntryMap 1), oneEntryMap_wf. Defined.

Lemma Clear_empties_witness :
  Size (Clear Example.oneEntryMap) = 0 ∧
  ∀ key, Get (Clear Example.oneEntryMap) key = Done (inhabitant, false).
Proof.
  destruct (Clear_empties Example.oneEntryMap) as (Hsize & _ & _ & _ & _ & _ & _ & HGet).
  split; [exact Hsize |]. apply HGet, oneEntryMap_wf.
Defined.

Lemma Keys_Values_witness :
  Z.of_nat (length (Keys Example.oneEntryMap)) = Size Example.oneEntryMap ∧
  NoDup (Keys Example.oneEntryMap) ∧
  (∀ key, key ∈ Keys Example.oneEntryMap
          ↔ ∃ v, Get Example.oneEntryMap key = Done (v, true)) ∧
  (∀ v, v ∈ Values Example.oneEntryMap
        ↔ ∃ key, Get Example.oneEntryMap key = Done (v, true)).
Proof.
  destruct (Keys_Values_spec Example.oneEntryMap) as (Hlen & _ & Hwf).
  split; [exact Hlen |]. apply Hwf, oneEntryMap_wf.
Defined.


Lemma runCalls_witness :
  ∃ m', runCalls (Example.new [WithShardCount 3])
          [CallPut 1 10; CallRemove 1; CallClear; CallPut 2 20] = Done m' ∧
        wf m' ∧
        length (shards m') = length (shards (Example.new [WithShardCount 3])) ∧
        mask m' = mask (Example.new [WithShardCount 3]) ∧
        mhasher m' = mhasher (Example.new [WithShardCount 3]) ∧
        opts m' = opts (Example.new [WithShardCount 3]) ∧
        (∀ key, index m' key = index (Example.new [WithShardCount 3]) key) ∧
        (∀ key, ∃ r, Get m' key = Done r).
Proof.
  apply (runCalls_never_panics ByteCodec.encoding intHasher 1 [WithShardCount 3]
           [CallPut 1 10; CallRemove 1; CallClear; CallPut 2 20]).
  simpl. lia.
Defined.

Lemma roundUpToPowerOf2_uint32_witness :
  leastPowerOf2 (Z.max 1 100) (roundUpToPowerOf2 100) ∧
  roundUpToPowerOf2 64 = 64 ∧
  roundUpToPowerOf2 4000000000 = 0.
Proof.
  assert (H100 : 0 ≤ 100 < 2 ^ 32) by (split; [discriminate | reflexivity]).
  assert (H64 : 0 ≤ 64 < 2 ^ 32) by (split; [discriminate | reflexivity]).
  assert (Hbig : 0 ≤ 4000000000 < 2 ^ 32) by (split; [discriminate | reflexivity]).
  destruct (roundUpToPowerOf2_uint32 100 H100) as (Hleast & _ & _).
  destruct (roundUpToPowerOf2_uint32 64 H64) as (_ & Hpow & _).
  destruct (roundUpToPowerOf2_uint32 4000000000 Hbig) as (_ & _ & Hzero).
  split; [apply Hleast; discriminate |].
  split; [apply (Hpow 6); [split; discriminate | reflexivity] |].
  apply Hzero. reflexivity.
Defined.

Lemma createMap_fresh_witness :
  Size (Example.new [WithShardCount 3]) = 0 ∧
  Empty (Example.new [WithShardCount 3]) = true ∧
  IsDirty (Example.new [WithShardCount 3]) = false ∧
  Keys (Example.new [WithShardCount 3]) = [] ∧
  ∀ key, Get (Example.new [WithShardCount 3]) key = Done (inhabitant, false).
Proof.
  apply (createMap_fresh ByteCodec.encoding intHasher 1 [WithShardCount 3]).
  simpl. lia.
Defined.

Lemma GetMultiple_witness :
  ∃ result, GetMultiple Example.oneEntryMap [1; 2] = Done result ∧
    ∀ key v, result !! key = Some v
             ↔ key ∈ [1; 2] ∧ Get Example.oneEntryMap key = Done (v, true).
Proof. apply (GetMultiple_spec Example.oneEntryMap [1; 2]), oneEntryMap_wf. Defined.

Lemma RemoveMultiple_witness :
  ∃ m', RemoveMultiple Example.oneEntryMap [1; 2] = Done m' ∧ wf m' ∧
    (∀ key, key ∈ [1; 2] → Get m' key = Done (inhabitant, false)) ∧
    (∀ key, key ∉ [1; 2] → Get m' key = Get Example.oneEntryMap key) ∧
    ((∀ key, key ∈ [1; 2] → Get Example.oneEntryMap key = Done (inhabitant, false))
       → m' = Example.oneEntryMap) ∧
    ((∃ key v, key ∈ [1; 2] ∧ Get Example.oneEntryMap key = Done (v, true))
       → IsDirty m' = true).
Proof. apply (RemoveMultiple_spec Example.oneEntryMap [1; 2]), oneEntryMap_wf. Defined.

Lemma PutAll_witness :
  ∃ m', PutAll Example.emptyMap [(2, 20); (1, 10)] = Done m' ∧ wf m' ∧
    (∀ key, Get m' key =
            match ({[1 := 10; 2 := 20]} : gmap Z Z) !! key with
            | Some v => Done (v, true)
            | None => Get Example.emptyMap key
            end) ∧
    (({[1 := 10; 2 := 20]} : gmap Z Z) = ∅ → m' = Example.emptyMap) ∧
    (({[1 := 10; 2 := 20]} : gmap Z Z) ≠ ∅ → IsDirty m' = true).
Proof.
  apply (PutAll_spec Example.emptyMap {[1 := 10; 2 := 20]} [(2, 20); (1, 10)]).
  - apply emptyMap_wf.
  - vm_compute. first [reflexivity | apply perm_swap].
Defined.

Lemma UnmarshalWith_replaces_witness :
  ∃ m', UnmarshalWith Example.oneEntryMap
          [Byte.x02; Byte.x14; Byte.x03; Byte.x1e; Byte.x02; Byte.x15]
          (JsonSerializer ByteCodec.encoding) = Done (None, m') ∧
    wf m' ∧ IsDirty m' = false ∧
    Get m' 2 = Done (21, true) ∧
    Get m' 1 = Done (inhabitant, false).
Proof.
  destruct (UnmarshalWith_replaces Example.oneEntryMap
              [Byte.x02; Byte.x14; Byte.x03; Byte.x1e; Byte.x02; Byte.x15]
              (JsonSerializer ByteCodec.encoding)
              (mkData [mkTuple 2 20; mkTuple 3 30; mkTuple 2 21])
              oneEntryMap_wf eq_refl)
    as (m' & Hrun & Hwf & Hd & Hlast & Habsent & _).
  exists m'. split; [exact Hrun |]. split; [exact Hwf |]. split; [exact Hd |].
  split.
  - apply (Hlast [mkTuple 2 20; mkTuple 3 30] (mkTuple 2 21) []); [reflexivity |].
    apply not_elem_of_nil.
  - apply Habsent. simpl. intros Hin.
    repeat (apply elem_of_cons in Hin as [Hin | Hin]; [discriminate |]).
    by apply elem_of_nil in Hin.
Defined.

Lemma MarshalJSON_UnmarshalJSON_witness :
  MarshalJSON ByteCodec.encoding Example.oneEntryMap
  = Done (Ok [Byte.x01; Byte.x0a]) ∧
  ∃ m2', UnmarshalJSON ByteCodec.encoding Example.noCodecMap [Byte.x01; Byte.x0a]
         = Done (None, m2') ∧
         IsDirty m2' = false ∧ Size m2' = Size Example.oneEntryMap ∧
         ∀ key, Get m2' key = Get Example.oneEntryMap key.
Proof.
  split; [reflexivity |].
  apply (MarshalJSON_UnmarshalJSON_roundtrip ByteCodec.encoding
           Example.oneEntryMap Example.noCodecMap [Byte.x01; Byte.x0a]).
  - apply oneEntryMap_wf.
  - apply Example_new_wf. vm_compute. split; discriminate.
  - right. reflexivity.
  - left. reflexivity.
  - intros [items] bs Henc. simpl in *.
    by rewrite (decodeItems_encodeItems _ _ Henc).
  - reflexivity.
Defined.

Lemma uint32Hash_injective_witness :
  uint32Hash 5 = uint32Hash (5 + 2 ^ 32) ∧ wrap32 5 = wrap32 (5 + 2 ^ 32).
Proof.
  assert (Heq : uint32Hash 5 = uint32Hash (5 + 2 ^ 32)) by reflexivity.
  split; [exact Heq |]. apply (uint32Hash_injective 5 (5 + 2 ^ 32) Heq).
Defined.

Lemma SaveToFile_touches_only_dirty_witness :
  let m' := setDirty Example.oneEntryMap false in
  let w' := MemFS.mkWorld {[ "x.json"%string := [Byte.x01; Byte.x0a] ]} ∅ 1 in
  SaveToFile MemFS.os Example.oneEntryMap "x.json" MemFS.empty = Done (None, m', w') ∧
  shards m' = shards Example.oneEntryMap ∧ mask m' = mask Example.oneEntryMap ∧
  mhasher m' = mhasher Example.oneEntryMap ∧ opts m' = opts Example.oneEntryMap ∧
  IsDirty m' = false.
Proof.
  intros m' w'.
  assert (Hsave : SaveToFile MemFS.os Example.oneEntryMap "x.json" MemFS.empty
                  = Done (None, m', w')) by reflexivity.
  destruct (SaveToFile_touches_only_dirty MemFS.os Example.oneEntryMap "x.json"
              MemFS.empty None m' w' Hsave) as (Hs & Hm & Hh & Ho & _ & Hok).
  split; [exact Hsave |]. split; [exact Hs |]. split; [exact Hm |].
  split; [exact Hh |]. split; [exact Ho |]. apply Hok. reflexivity.
Defined.

Lemma LoadFromFile_all_or_nothing_witness :
  let e := wrapError "failed to unmarshal data from bad.bin"
             (errorString "unexpected end of input") in
  LoadFromFile MemFS.os Example.oneEntryMap "bad.bin" Example.badFileWorld
  = Done (Some e, Example.oneEntryMap, Example.badFileWorld) ∧
  ∀ err, Some e = Some err → Example.oneEntryMap = Example.oneEntryMap.
Proof.
  intros e.
  assert (Hload : LoadFromFile MemFS.os Example.oneEntryMap "bad.bin"
                    Example.badFileWorld
                  = Done (Some e, Example.oneEntryMap, Example.badFileWorld))
    by reflexivity.
  split; [exact Hload |].
  apply (LoadFromFile_all_or_nothing MemFS.os Example.oneEntryMap "bad.bin"
           Example.badFileWorld (Some e) Example.oneEntryMap
           Example.badFileWorld Hload).
Defined.

Lemma SaveToFile_clean_nonempty_skips_witness :
  let m := setDirty Example.oneEntryMap false in
  SaveToFile MemFS.os m "never-written.json" MemFS.empty
  = match ensureDir MemFS.os "never-written.json" MemFS.empty with
    | (Some err, w') => Done (Some err, m, w')
    | (None, w') => Done (None, m, w')
    end.
Proof.
  intros m.
  apply (SaveToFile_clean_nonempty_skips MemFS.os m "never-written.json"
           MemFS.empty (JsonSerializer ByteCodec.encoding)
           (encode ByteCodec.encoding)); try reflexivity.
  discriminate.
Defined.

Lemma LoadFromFile_empty_file_witness :
  let w := MemFS.mkWorld {[ "empty.json"%string := [] ]} ∅ 0 in
  ∃ m', LoadFromFile MemFS.os Example.oneEntryMap "empty.json" w = Done (None, m', w) ∧
        Size m' = 0 ∧ Empty m' = true ∧ Keys m' = [] ∧ IsDirty m' = false.
Proof.
  intros w.
  apply (LoadFromFile_empty_file MemFS.os Example.oneEntryMap "empty.json"
           w w w (JsonSerializer ByteCodec.encoding)
           (decode ByteCodec.encoding)); try reflexivity.
  discriminate.
Defined.

Lemma LoadFromFile_missing_file_witness :
  LoadFromFile MemFS.os Example.oneEntryMap "nonexistent.json" MemFS.empty
  = Done (Some (errorString "file nonexistent.json does not exist"),
          Example.oneEntryMap, MemFS.empty).
Proof.
  apply (LoadFromFile_missing_file MemFS.os Example.oneEntryMap
           "nonexistent.json" MemFS.empty MemFS.empty
           (JsonSerializer ByteCodec.encoding) (decode ByteCodec.encoding));
    try reflexivity.
  discriminate.
Defined.

Lemma LoadFromFile_after_MarshalWith_witness :
  let w := MemFS.mkWorld {[ "x.json"%string := [Byte.x01; Byte.x0a] ]} ∅ 1 in
  SaveToFile MemFS.os Example.oneEntryMap "x.json" MemFS.empty
  = Done (None, setDirty Example.oneEntryMap false, w) ∧
  ∃ m2', LoadFromFile MemFS.os Example.emptyMap "x.json" w = Done (None, m2', w) ∧
         IsDirty m2' = false ∧ Size m2' = Size Example.oneEntryMap ∧
         ∀ key, Get m2' key = Get Example.oneEntryMap key.
Proof.
  intros w. split; [reflexivity |].
  apply (LoadFromFile_after_MarshalWith MemFS.os Example.oneEntryMap
           Example.emptyMap "x.json" w w w (JsonSerializer ByteCodec.encoding)
           [Byte.x01; Byte.x0a]); try reflexivity.
  - apply oneEntryMap_wf.
  - apply emptyMap_wf.
  - apply ByteCodec_inverse.
  - discriminate.
  - discriminate.
Defined.

(** ** Routing and string hashing *)

Section routing.
Context {K V : Type} `{Countable K} `{Inhabited V}.

(** X21.  On a map built for a requested shard count of at most 2^31,
    masking the hash is reducing it modulo the number of shards: a key is
    routed to the shard whose index is its hash modulo the shard count. *)
Theorem createMap_routes_modulo
    (json : Encoding K V) (hasher_K : hasher K) (numCPU : Z)
    (options : list (Option K V)) (key : K) :
  let c := createMap json hasher_K numCPU options in
  0 ≤ ShardCount (opts c) ≤ 2 ^ 31 →
  index c key = Z.to_nat (hasher_K key mod Z.of_nat (length (shards c))).
Proof.
  intros c Hn.
  destruct (createMap_leastPowerOf2 json hasher_K numCPU options Hn)
    as [[(e & He & Hpow) _] Hmask].
  fold c in Hpow, Hmask. unfold index.
  change (mhasher c key) with (hasher_K key).
  replace (mask c) with (Z.ones e).
  - by rewrite Z.land_ones, Hpow by done.
  - rewrite Z.ones_equiv. lia.
Qed.

End routing.

Lemma fnv32_app s1 : ∀ h s2, fnv32 h (String.append s1 s2) = fnv32 (fnv32 h s1) s2.
Proof. induction s1 as [| c s1 IH]; intros h s2; simpl; [done | apply IH]. Qed.

(** X22.  Two strings that differ only in their last byte have different
    FNV hashes: [stringHasher] returns equal hashes for [s] followed by
    [c1] and [s] followed by [c2] only when [c1] is [c2]. *)
Theorem stringHasher_last_byte (s : string) (c1 c2 : Ascii.ascii) :
  stringHasher (String.append s (String c1 ""))
  = stringHasher (String.append s (String c2 "")) → c1 = c2.
Proof.
  unfold stringHasher. rewrite !fnv32_app. simpl. unfold fnv32_step.
  set (h := wrap32 (fnv32 2166136261 s * 16777619)). intros Heq.
  assert (Hx : Z.lxor (Z.of_N (Ascii.N_of_ascii c1)) (Z.of_N (Ascii.N_of_ascii c2)) = 0).
  { rewrite <- (Z.lxor_nilpotent (Z.lxor h (Z.of_N (Ascii.N_of_ascii c1)))).
    rewrite Heq at 2.
    rewrite Z.lxor_assoc, <- (Z.lxor_assoc (Z.of_N (Ascii.N_of_ascii c1))).
    rewrite (Z.lxor_comm (Z.of_N (Ascii.N_of_ascii c1)) h).
    rewrite Z.lxor_assoc, <- (Z.lxor_assoc h h), Z.lxor_nilpotent, Z.lxor_0_l.
    done. }
  apply Z.lxor_eq, N2Z.inj in Hx.
  by rewrite <- (Ascii.ascii_N_embedding c1), <- (Ascii.ascii_N_embedding c2), Hx.
Qed.

Lemma createMap_routes_modulo_witness :
  index (Example.new [WithShardCount 3]) 7
  = Z.to_nat (intHasher 7 mod Z.of_nat (length (shards (Example.new [WithShardCount 3])))).
Proof.
  apply (createMap_routes_modulo ByteCodec.encoding intHasher 1 [WithShardCount 3] 7).
  simpl. lia.
Defined.

Lemma stringHasher_last_byte_witness :
  stringHasher (String.append "key" "a") = stringHasher (String.append "key" "a") ∧
  Ascii.ascii_of_nat 97 = Ascii.ascii_of_nat 97.
Proof.
  split; [reflexivity |].
  apply (stringHasher_last_byte "key" (Ascii.ascii_of_nat 97) (Ascii.ascii_of_nat 97)).
  reflexivity.
Defined.
